(** * Paillier engine of [homoReducer.py]: a shallow embedding and its properties

    The embedding follows the pure-Python branches of the program
    ([HAVE_GMP = False]).  Python integers are [Z]; Python's [//] and [%]
    are [Z.div] and [Z.modulo] (both round towards minus infinity and take
    the sign of the divisor); exceptions are values of an error monad, one
    constructor per [raise] site; and every value the program draws from
    [random] is an explicit argument of the function that draws it (no
    function of the engine draws more than once).

    Covered: [powmod], [extended_euclidean_algorithm], [invert],
    [miller_rabin], [is_prime] with its table, [EncodedNumber] (for [int]
    scalars and [precision=None]), [PaillierPublicKey], [EncryptedNumber]
    and [PaillierPrivateKey] (constructor, [raw_decrypt], [decrypt]).  Key
    generation, [from_totient], the keyring, the base64 helpers and the
    driver loop at the end of the file are not part of it. *)

From Stdlib Require Import ZArith List Bool Lia QArith Qround Qpower Qabs Znumtheory.
From Stdlib Require Import Zmod.
Import ListNotations.

#[local] Open Scope Z_scope.

(** ** Exceptions and the error monad *)

(** The Python exception classes the program raises. *)
Inductive pyexc : Type :=
| ValueError
| ZeroDivisionError
| OverflowError
| TypeError
| NotImplementedError
| AssertionError.

(** One constructor per [raise] site (or per raising built-in). *)
Inductive exn : Type :=
| NoInverse               (* invert: 'invert() no inverse exists' *)
| ModuloByZero            (* built-in [%] or [//] with a zero divisor *)
| PowZeroModulus          (* built-in pow: 3rd argument cannot be 0 *)
| PowNotInvertible        (* built-in pow: base is not invertible *)
| EmptyRange              (* random.randrange / randint on an empty range *)
| IntegerOutOfRange       (* encode: 'Integer needs to be within +/- ...' *)
| CorruptedNumber         (* decode: 'Attempted to decode corrupted number' *)
| OverflowDetected        (* decode: 'Overflow detected in decrypted number' *)
| ResultTooLarge          (* decode: 'decoded result too large for a float' *)
| DivisionTooLarge        (* built-in [/]: 'integer division result too large' *)
| ExponentNotLower        (* decrease_exponent_to: 'New exponent ...' *)
| DifferentKeys           (* _add_*, decrypt_encoded: different public keys *)
| ScalarOutOfBounds       (* _raw_mul: 'Scalar out of bounds' *)
| MulEncrypted            (* __mul__: 'Good luck with that...' *)
| KeyMismatch             (* PaillierPrivateKey: p*q != n *)
| EqualFactors            (* PaillierPrivateKey: p == q *)
| UnsupportedOperand      (* EncodedNumber * int *)
| AssertFailed            (* a failed [assert] *)
| Diverged.               (* a loop of the embedding ran out of fuel *)

Definition exn_class (e : exn) : option pyexc :=
  match e with
  | NoInverse | ModuloByZero => Some ZeroDivisionError
  | PowZeroModulus | PowNotInvertible | EmptyRange | IntegerOutOfRange
  | CorruptedNumber | ExponentNotLower | DifferentKeys | ScalarOutOfBounds
  | KeyMismatch | EqualFactors => Some ValueError
  | OverflowDetected | ResultTooLarge | DivisionTooLarge => Some OverflowError
  | MulEncrypted => Some NotImplementedError
  | UnsupportedOperand => Some TypeError
  | AssertFailed => Some AssertionError
  | Diverged => None
  end.

Inductive res (A : Type) : Type :=
| Ok (a : A)
| Raise (e : exn).

Arguments Ok {A} a.
Arguments Raise {A} e.

Definition bind {A B : Type} (m : res A) (k : A -> res B) : res B :=
  match m with
  | Ok a => k a
  | Raise e => Raise e
  end.

Notation "x <- m ;; k" := (bind m (fun x => k))
  (at level 61, m at next level, right associativity).

Definition py_mod (a b : Z) : res Z :=
  if b =? 0 then Raise ModuloByZero else Ok (a mod b).

Definition py_floordiv (a b : Z) : res Z :=
  if b =? 0 then Raise ModuloByZero else Ok (a / b).

(** [x or y] on an optional integer: [None] and [0] are falsy. *)
Definition py_or (x : option Z) (y : Z) : Z :=
  match x with
  | Some v => if v =? 0 then y else v
  | None => y
  end.

(** ** Modular arithmetic *)

(** The built-in [pow(a, b, c)] on integers.  A negative exponent inverts
    the base first (Python 3.8 and later). *)
Definition py_pow3 (a b c : Z) : res Z :=
  if c =? 0 then Raise PowZeroModulus
  else if 0 <=? b then Ok (a ^ b mod c)
  else if Z.gcd a c =? 1 then Ok (Z.invmod a c ^ (- b) mod c)
  else Raise PowNotInvertible.

Definition powmod (a b c : Z) : res Z :=
  if a =? 1 then Ok 1 else py_pow3 a b c.

(** The [while r1 != 0] loop of [extended_euclidean_algorithm]; [None] when
    the fuel is used up before the loop ends. *)
Fixpoint eea_loop (fuel : nat) (r0 r1 s0 s1 t0 t1 : Z) : option (Z * Z * Z) :=
  if r1 =? 0 then Some (r0, s0, t0)
  else
    match fuel with
    | O => None
    | S fuel' =>
        let q := r0 / r1 in
        eea_loop fuel' r1 (r0 - q * r1) s1 (s0 - q * s1) t1 (t0 - q * t1)
    end.

Definition eea_fuel (b : Z) : nat := S (Z.to_nat (Z.abs b)).

Definition extended_euclidean_algorithm (a b : Z) : option (Z * Z * Z) :=
  eea_loop (eea_fuel b) a b 1 0 0 1.

Definition invert (a b : Z) : res Z :=
  match extended_euclidean_algorithm a b with
  | None => Raise Diverged
  | Some (r, s, _) =>
      if negb (r =? 1) then Raise NoInverse else py_mod s b
  end.

(** ** Prime testing *)

Definition first_primes : list Z :=
  [
  2; 3; 5; 7; 11; 13; 17; 19; 23; 29; 31; 37;
  41; 43; 47; 53; 59; 61; 67; 71; 73; 79; 83; 89;
  97; 101; 103; 107; 109; 113; 127; 131; 137; 139; 149; 151;
  157; 163; 167; 173; 179; 181; 191; 193; 197; 199; 211; 223;
  227; 229; 233; 239; 241; 251; 257; 263; 269; 271; 277; 281;
  283; 293; 307; 311; 313; 317; 331; 337; 347; 349; 353; 359;
  367; 373; 379; 383; 389; 397; 401; 409; 419; 421; 431; 433;
  439; 443; 449; 457; 461; 463; 467; 479; 487; 491; 499; 503;
  509; 521; 523; 541; 547; 557; 563; 569; 571; 577; 587; 593;
  599; 601; 607; 613; 617; 619; 631; 641; 643; 647; 653; 659;
  661; 673; 677; 683; 691; 701; 709; 719; 727; 733; 739; 743;
  751; 757; 761; 769; 773; 787; 797; 809; 811; 821; 823; 827;
  829; 839; 853; 857; 859; 863; 877; 881; 883; 887; 907; 911;
  919; 929; 937; 941; 947; 953; 967; 971; 977; 983; 991; 997;
  1009; 1013; 1019; 1021; 1031; 1033; 1039; 1049; 1051; 1061; 1063; 1069;
  1087; 1091; 1093; 1097; 1103; 1109; 1117; 1123; 1129; 1151; 1153; 1163;
  1171; 1181; 1187; 1193; 1201; 1213; 1217; 1223; 1229; 1231; 1237; 1249;
  1259; 1277; 1279; 1283; 1289; 1291; 1297; 1301; 1303; 1307; 1319; 1321;
  1327; 1361; 1367; 1373; 1381; 1399; 1409; 1423; 1427; 1429; 1433; 1439;
  1447; 1451; 1453; 1459; 1471; 1481; 1483; 1487; 1489; 1493; 1499; 1511;
  1523; 1531; 1543; 1549; 1553; 1559; 1567; 1571; 1579; 1583; 1597; 1601;
  1607; 1609; 1613; 1619; 1621; 1627; 1637; 1657; 1663; 1667; 1669; 1693;
  1697; 1699; 1709; 1721; 1723; 1733; 1741; 1747; 1753; 1759; 1777; 1783;
  1787; 1789; 1801; 1811; 1823; 1831; 1847; 1861; 1867; 1871; 1873; 1877;
  1879; 1889; 1901; 1907; 1913; 1931; 1933; 1949; 1951; 1973; 1979; 1987;
  1993; 1997; 1999; 2003; 2011; 2017; 2027; 2029; 2039; 2053; 2063; 2069;
  2081; 2083; 2087; 2089; 2099; 2111; 2113; 2129; 2131; 2137; 2141; 2143;
  2153; 2161; 2179; 2203; 2207; 2213; 2221; 2237; 2239; 2243; 2251; 2267;
  2269; 2273; 2281; 2287; 2293; 2297; 2309; 2311; 2333; 2339; 2341; 2347;
  2351; 2357; 2371; 2377; 2381; 2383; 2389; 2393; 2399; 2411; 2417; 2423;
  2437; 2441; 2447; 2459; 2467; 2473; 2477; 2503; 2521; 2531; 2539; 2543;
  2549; 2551; 2557; 2579; 2591; 2593; 2609; 2617; 2621; 2633; 2647; 2657;
  2659; 2663; 2671; 2677; 2683; 2687; 2689; 2693; 2699; 2707; 2711; 2713;
  2719; 2729; 2731; 2741; 2749; 2753; 2767; 2777; 2789; 2791; 2797; 2801;
  2803; 2819; 2833; 2837; 2843; 2851; 2857; 2861; 2879; 2887; 2897; 2903;
  2909; 2917; 2927; 2939; 2953; 2957; 2963; 2969; 2971; 2999; 3001; 3011;
  3019; 3023; 3037; 3041; 3049; 3061; 3067; 3079; 3083; 3089; 3109; 3119;
  3121; 3137; 3163; 3167; 3169; 3181; 3187; 3191; 3203; 3209; 3217; 3221;
  3229; 3251; 3253; 3257; 3259; 3271; 3299; 3301; 3307; 3313; 3319; 3323;
  3329; 3331; 3343; 3347; 3359; 3361; 3371; 3373; 3389; 3391; 3407; 3413;
  3433; 3449; 3457; 3461; 3463; 3467; 3469; 3491; 3499; 3511; 3517; 3527;
  3529; 3533; 3539; 3541; 3547; 3557; 3559; 3571; 3581; 3583; 3593; 3607;
  3613; 3617; 3623; 3631; 3637; 3643; 3659; 3671; 3673; 3677; 3691; 3697;
  3701; 3709; 3719; 3727; 3733; 3739; 3761; 3767; 3769; 3779; 3793; 3797;
  3803; 3821; 3823; 3833; 3847; 3851; 3853; 3863; 3877; 3881; 3889; 3907;
  3911; 3917; 3919; 3923; 3929; 3931; 3943; 3947; 3967; 3989; 4001; 4003;
  4007; 4013; 4019; 4021; 4027; 4049; 4051; 4057; 4073; 4079; 4091; 4093;
  4099; 4111; 4127; 4129; 4133; 4139; 4153; 4157; 4159; 4177; 4201; 4211;
  4217; 4219; 4229; 4231; 4241; 4243; 4253; 4259; 4261; 4271; 4273; 4283;
  4289; 4297; 4327; 4337; 4339; 4349; 4357; 4363; 4373; 4391; 4397; 4409;
  4421; 4423; 4441; 4447; 4451; 4457; 4463; 4481; 4483; 4493; 4507; 4513;
  4517; 4519; 4523; 4547; 4549; 4561; 4567; 4583; 4591; 4597; 4603; 4621;
  4637; 4639; 4643; 4649; 4651; 4657; 4663; 4673; 4679; 4691; 4703; 4721;
  4723; 4729; 4733; 4751; 4759; 4783; 4787; 4789; 4793; 4799; 4801; 4813;
  4817; 4831; 4861; 4871; 4877; 4889; 4903; 4909; 4919; 4931; 4933; 4937;
  4943; 4951; 4957; 4967; 4969; 4973; 4987; 4993; 4999; 5003; 5009; 5011;
  5021; 5023; 5039; 5051; 5059; 5077; 5081; 5087; 5099; 5101; 5107; 5113;
  5119; 5147; 5153; 5167; 5171; 5179; 5189; 5197; 5209; 5227; 5231; 5233;
  5237; 5261; 5273; 5279; 5281; 5297; 5303; 5309; 5323; 5333; 5347; 5351;
  5381; 5387; 5393; 5399; 5407; 5413; 5417; 5419; 5431; 5437; 5441; 5443;
  5449; 5471; 5477; 5479; 5483; 5501; 5503; 5507; 5519; 5521; 5527; 5531;
  5557; 5563; 5569; 5573; 5581; 5591; 5623; 5639; 5641; 5647; 5651; 5653;
  5657; 5659; 5669; 5683; 5689; 5693; 5701; 5711; 5717; 5737; 5741; 5743;
  5749; 5779; 5783; 5791; 5801; 5807; 5813; 5821; 5827; 5839; 5843; 5849;
  5851; 5857; 5861; 5867; 5869; 5879; 5881; 5897; 5903; 5923; 5927; 5939;
  5953; 5981; 5987; 6007; 6011; 6029; 6037; 6043; 6047; 6053; 6067; 6073;
  6079; 6089; 6091; 6101; 6113; 6121; 6131; 6133; 6143; 6151; 6163; 6173;
  6197; 6199; 6203; 6211; 6217; 6221; 6229; 6247; 6257; 6263; 6269; 6271;
  6277; 6287; 6299; 6301; 6311; 6317; 6323; 6329; 6337; 6343; 6353; 6359;
  6361; 6367; 6373; 6379; 6389; 6397; 6421; 6427; 6449; 6451; 6469; 6473;
  6481; 6491; 6521; 6529; 6547; 6551; 6553; 6563; 6569; 6571; 6577; 6581;
  6599; 6607; 6619; 6637; 6653; 6659; 6661; 6673; 6679; 6689; 6691; 6701;
  6703; 6709; 6719; 6733; 6737; 6761; 6763; 6779; 6781; 6791; 6793; 6803;
  6823; 6827; 6829; 6833; 6841; 6857; 6863; 6869; 6871; 6883; 6899; 6907;
  6911; 6917; 6947; 6949; 6959; 6961; 6967; 6971; 6977; 6983; 6991; 6997;
  7001; 7013; 7019; 7027; 7039; 7043; 7057; 7069; 7079; 7103; 7109; 7121;
  7127; 7129; 7151; 7159; 7177; 7187; 7193; 7207; 7211; 7213; 7219; 7229;
  7237; 7243; 7247; 7253; 7283; 7297; 7307; 7309; 7321; 7331; 7333; 7349;
  7351; 7369; 7393; 7411; 7417; 7433; 7451; 7457; 7459; 7477; 7481; 7487;
  7489; 7499; 7507; 7517; 7523; 7529; 7537; 7541; 7547; 7549; 7559; 7561;
  7573; 7577; 7583; 7589; 7591; 7603; 7607; 7621; 7639; 7643; 7649; 7669;
  7673; 7681; 7687; 7691; 7699; 7703; 7717; 7723; 7727; 7741; 7753; 7757;
  7759; 7789; 7793; 7817; 7823; 7829; 7841; 7853; 7867; 7873; 7877; 7879;
  7883; 7901; 7907; 7919; 7927; 7933; 7937; 7949; 7951; 7963; 7993; 8009;
  8011; 8017; 8039; 8053; 8059; 8069; 8081; 8087; 8089; 8093; 8101; 8111;
  8117; 8123; 8147; 8161; 8167; 8171; 8179; 8191; 8209; 8219; 8221; 8231;
  8233; 8237; 8243; 8263; 8269; 8273; 8287; 8291; 8293; 8297; 8311; 8317;
  8329; 8353; 8363; 8369; 8377; 8387; 8389; 8419; 8423; 8429; 8431; 8443;
  8447; 8461; 8467; 8501; 8513; 8521; 8527; 8537; 8539; 8543; 8563; 8573;
  8581; 8597; 8599; 8609; 8623; 8627; 8629; 8641; 8647; 8663; 8669; 8677;
  8681; 8689; 8693; 8699; 8707; 8713; 8719; 8731; 8737; 8741; 8747; 8753;
  8761; 8779; 8783; 8803; 8807; 8819; 8821; 8831; 8837; 8839; 8849; 8861;
  8863; 8867; 8887; 8893; 8923; 8929; 8933; 8941; 8951; 8963; 8969; 8971;
  8999; 9001; 9007; 9011; 9013; 9029; 9041; 9043; 9049; 9059; 9067; 9091;
  9103; 9109; 9127; 9133; 9137; 9151; 9157; 9161; 9173; 9181; 9187; 9199;
  9203; 9209; 9221; 9227; 9239; 9241; 9257; 9277; 9281; 9283; 9293; 9311;
  9319; 9323; 9337; 9341; 9343; 9349; 9371; 9377; 9391; 9397; 9403; 9413;
  9419; 9421; 9431; 9433; 9437; 9439; 9461; 9463; 9467; 9473; 9479; 9491;
  9497; 9511; 9521; 9533; 9539; 9547; 9551; 9587; 9601; 9613; 9619; 9623;
  9629; 9631; 9643; 9649; 9661; 9677; 9679; 9689; 9697; 9719; 9721; 9733;
  9739; 9743; 9749; 9767; 9769; 9781; 9787; 9791; 9803; 9811; 9817; 9829;
  9833; 9839; 9851; 9857; 9859; 9871; 9883; 9887; 9901; 9907; 9923; 9929;
  9931; 9941; 9949; 9967; 9973; 10007; 10009; 10037; 10039; 10061; 10067; 10069;
  10079; 10091; 10093; 10099; 10103; 10111; 10133; 10139; 10141; 10151; 10159; 10163;
  10169; 10177; 10181; 10193; 10211; 10223; 10243; 10247; 10253; 10259; 10267; 10271;
  10273; 10289; 10301; 10303; 10313; 10321; 10331; 10333; 10337; 10343; 10357; 10369;
  10391; 10399; 10427; 10429; 10433; 10453; 10457; 10459; 10463; 10477; 10487; 10499;
  10501; 10513; 10529; 10531; 10559; 10567; 10589; 10597; 10601; 10607; 10613; 10627;
  10631; 10639; 10651; 10657; 10663; 10667; 10687; 10691; 10709; 10711; 10723; 10729;
  10733; 10739; 10753; 10771; 10781; 10789; 10799; 10831; 10837; 10847; 10853; 10859;
  10861; 10867; 10883; 10889; 10891; 10903; 10909; 10937; 10939; 10949; 10957; 10973;
  10979; 10987; 10993; 11003; 11027; 11047; 11057; 11059; 11069; 11071; 11083; 11087;
  11093; 11113; 11117; 11119; 11131; 11149; 11159; 11161; 11171; 11173; 11177; 11197;
  11213; 11239; 11243; 11251; 11257; 11261; 11273; 11279; 11287; 11299; 11311; 11317;
  11321; 11329; 11351; 11353; 11369; 11383; 11393; 11399; 11411; 11423; 11437; 11443;
  11447; 11467; 11471; 11483; 11489; 11491; 11497; 11503; 11519; 11527; 11549; 11551;
  11579; 11587; 11593; 11597; 11617; 11621; 11633; 11657; 11677; 11681; 11689; 11699;
  11701; 11717; 11719; 11731; 11743; 11777; 11779; 11783; 11789; 11801; 11807; 11813;
  11821; 11827; 11831; 11833; 11839; 11863; 11867; 11887; 11897; 11903; 11909; 11923;
  11927; 11933; 11939; 11941; 11953; 11959; 11969; 11971; 11981; 11987; 12007; 12011;
  12037; 12041; 12043; 12049; 12071; 12073; 12097; 12101; 12107; 12109; 12113; 12119;
  12143; 12149; 12157; 12161; 12163; 12197; 12203; 12211; 12227; 12239; 12241; 12251;
  12253; 12263; 12269; 12277; 12281; 12289; 12301; 12323; 12329; 12343; 12347; 12373;
  12377; 12379; 12391; 12401; 12409; 12413; 12421; 12433; 12437; 12451; 12457; 12473;
  12479; 12487; 12491; 12497; 12503; 12511; 12517; 12527; 12539; 12541; 12547; 12553;
  12569; 12577; 12583; 12589; 12601; 12611; 12613; 12619; 12637; 12641; 12647; 12653;
  12659; 12671; 12689; 12697; 12703; 12713; 12721; 12739; 12743; 12757; 12763; 12781;
  12791; 12799; 12809; 12821; 12823; 12829; 12841; 12853; 12889; 12893; 12899; 12907;
  12911; 12917; 12919; 12923; 12941; 12953; 12959; 12967; 12973; 12979; 12983; 13001;
  13003; 13007; 13009; 13033; 13037; 13043; 13049; 13063; 13093; 13099; 13103; 13109;
  13121; 13127; 13147; 13151; 13159; 13163; 13171; 13177; 13183; 13187; 13217; 13219;
  13229; 13241; 13249; 13259; 13267; 13291; 13297; 13309; 13313; 13327; 13331; 13337;
  13339; 13367; 13381; 13397; 13399; 13411; 13417; 13421; 13441; 13451; 13457; 13463;
  13469; 13477; 13487; 13499; 13513; 13523; 13537; 13553; 13567; 13577; 13591; 13597;
  13613; 13619; 13627; 13633; 13649; 13669; 13679; 13681; 13687; 13691; 13693; 13697;
  13709; 13711; 13721; 13723; 13729; 13751; 13757; 13759; 13763; 13781; 13789; 13799;
  13807; 13829; 13831; 13841; 13859; 13873; 13877; 13879; 13883; 13901; 13903; 13907;
  13913; 13921; 13931; 13933; 13963; 13967; 13997; 13999; 14009; 14011; 14029; 14033;
  14051; 14057; 14071; 14081; 14083; 14087; 14107; 14143; 14149; 14153; 14159; 14173;
  14177; 14197; 14207; 14221; 14243; 14249; 14251; 14281; 14293; 14303; 14321; 14323;
  14327; 14341; 14347; 14369; 14387; 14389; 14401; 14407; 14411; 14419; 14423; 14431;
  14437; 14447; 14449; 14461; 14479; 14489; 14503; 14519; 14533; 14537; 14543; 14549;
  14551; 14557; 14561; 14563; 14591; 14593; 14621; 14627; 14629; 14633; 14639; 14653;
  14657; 14669; 14683; 14699; 14713; 14717; 14723; 14731; 14737; 14741; 14747; 14753;
  14759; 14767; 14771; 14779; 14783; 14797; 14813; 14821; 14827; 14831; 14843; 14851;
  14867; 14869; 14879; 14887; 14891; 14897; 14923; 14929; 14939; 14947; 14951; 14957;
  14969; 14983; 15013; 15017; 15031; 15053; 15061; 15073; 15077; 15083; 15091; 15101;
  15107; 15121; 15131; 15137; 15139; 15149; 15161; 15173; 15187; 15193; 15199; 15217;
  15227; 15233; 15241; 15259; 15263; 15269; 15271; 15277; 15287; 15289; 15299; 15307;
  15313; 15319; 15329; 15331; 15349; 15359; 15361; 15373; 15377; 15383; 15391; 15401;
  15413; 15427; 15439; 15443; 15451; 15461; 15467; 15473; 15493; 15497; 15511; 15527;
  15541; 15551; 15559; 15569; 15581; 15583; 15601; 15607; 15619; 15629; 15641; 15643;
  15647; 15649; 15661; 15667; 15671; 15679; 15683; 15727; 15731; 15733; 15737; 15739;
  15749; 15761; 15767; 15773; 15787; 15791; 15797; 15803; 15809; 15817; 15823; 15859;
  15877; 15881; 15887; 15889; 15901; 15907; 15913; 15919; 15923; 15937; 15959; 15971;
  15973; 15991; 16001; 16007; 16033; 16057; 16061; 16063; 16067; 16069; 16073; 16087;
  16091; 16097; 16103; 16111; 16127; 16139; 16141; 16183; 16187; 16189; 16193; 16217;
  16223; 16229; 16231; 16249; 16253; 16267; 16273; 16301; 16319; 16333; 16339; 16349;
  16361; 16363; 16369; 16381; 16411; 16417; 16421; 16427; 16433; 16447; 16451; 16453;
  16477; 16481; 16487; 16493; 16519; 16529; 16547; 16553; 16561; 16567; 16573; 16603;
  16607; 16619; 16631; 16633; 16649; 16651; 16657; 16661; 16673; 16691; 16693; 16699;
  16703; 16729; 16741; 16747; 16759; 16763; 16787; 16811; 16823; 16829; 16831; 16843;
  16871; 16879; 16883; 16889; 16901; 16903; 16921; 16927; 16931; 16937; 16943; 16963;
  16979; 16981; 16987; 16993; 17011; 17021; 17027; 17029; 17033; 17041; 17047; 17053;
  17077; 17093; 17099; 17107; 17117; 17123; 17137; 17159; 17167; 17183; 17189; 17191;
  17203; 17207; 17209; 17231; 17239; 17257; 17291; 17293; 17299; 17317; 17321; 17327;
  17333; 17341; 17351; 17359; 17377; 17383; 17387; 17389; 17393; 17401; 17417; 17419;
  17431; 17443; 17449; 17467; 17471; 17477; 17483; 17489; 17491; 17497; 17509; 17519;
  17539; 17551; 17569; 17573; 17579; 17581; 17597; 17599; 17609; 17623; 17627; 17657;
  17659; 17669; 17681; 17683; 17707; 17713; 17729; 17737; 17747; 17749; 17761; 17783;
  17789; 17791; 17807; 17827; 17837; 17839; 17851; 17863
  ].

(** The [while d % 2 == 0] loop of [miller_rabin]: halve [d], count in [r]. *)
Fixpoint mr_split (fuel : nat) (d r : Z) : option (Z * Z) :=
  if negb (d mod 2 =? 0) then Some (d, r)
  else
    match fuel with
    | O => None
    | S fuel' => mr_split fuel' (d / 2) (r + 1)
    end.

(** [random.randint(lo, hi)]; [drawn] is the value the source returns. *)
Definition randint (lo hi drawn : Z) : res Z :=
  if hi <? lo then Raise EmptyRange else Ok drawn.

(** The inner [for _ in range(1, r)] loop with its [else]: [true] when the
    loop left through [break], [false] when it ran to its end. *)
Fixpoint mr_square_loop (iters : nat) (x n : Z) : res bool :=
  match iters with
  | O => Ok false
  | S iters' =>
      x' <- py_mod (x * x) n ;;
      if x' =? n - 1 then Ok true else mr_square_loop iters' x' n
  end.

(** The [for _ in range(k)] loop; [rand i] is the witness of round [i]. *)
Fixpoint mr_rounds (k : nat) (i : nat) (rand : nat -> Z) (d r n : Z)
  : res bool :=
  match k with
  | O => Ok true
  | S k' =>
      a <- randint 2 (n - 2) (rand i) ;;
      x <- py_pow3 a d n ;;
      if (x =? 1) || (x =? n - 1) then mr_rounds k' (S i) rand d r n
      else
        brk <- mr_square_loop (Z.to_nat (r - 1)) x n ;;
        if brk then mr_rounds k' (S i) rand d r n else Ok false
  end.

Definition miller_rabin (n k : Z) (rand : nat -> Z) : res bool :=
  if negb (3 <? n) then Raise AssertFailed
  else
    match mr_split (Z.to_nat (Z.log2 (n - 1))) (n - 1) 0 with
    | None => Raise Diverged
    | Some (d, r) =>
        if negb (n - 1 =? d * 2 ^ r) then Raise AssertFailed
        else if negb (d mod 2 =? 1) then Raise AssertFailed
        else mr_rounds (Z.to_nat k) 0 rand d r n
    end.

(** [for p in first_primes: if n % p == 0: return False]. *)
Fixpoint has_small_divisor (n : Z) (ps : list Z) : bool :=
  match ps with
  | [] => false
  | p :: ps' => if n mod p =? 0 then true else has_small_divisor n ps'
  end.

(** [n in first_primes]. *)
Fixpoint py_in (n : Z) (ps : list Z) : bool :=
  match ps with
  | [] => false
  | p :: ps' => if n =? p then true else py_in n ps'
  end.

Definition is_prime (n mr_rounds : Z) (rand : nat -> Z) : res bool :=
  if n <=? last first_primes 0 then Ok (py_in n first_primes)
  else if has_small_divisor n first_primes then Ok false
  else miller_rabin n mr_rounds rand.

(** ** Python numbers the decoder returns *)

(** A finite binary64 value [fmant * 2 ^ fexp]. *)
Record float64 : Type := { fmant : Z; fexp : Z }.

Definition F2Q (f : float64) : Q :=
  inject_Z (fmant f) * Qpower 2 (fexp f).

(** [2^e * y <= x], for an exponent of either sign. *)
Definition pow2_le (y e x : Z) : bool :=
  if 0 <=? e then y * 2 ^ e <=? x else y <=? x * 2 ^ (- e).

(** The binary exponent of the quotient of two positive integers: the [e]
    with [2^e <= x / y < 2^(e + 1)]. *)
Definition quotient_exponent (x y : Z) : Z :=
  let e0 := Z.log2 x - Z.log2 y in
  if pow2_le y e0 x then e0 else e0 - 1.

(** The exponent of the last place of a binary64 value of that size: 53
    significant bits, and no less than the subnormal exponent -1074. *)
Definition ulp_exponent (x y : Z) : Z :=
  Z.max (quotient_exponent x y - 52) (- 1074).

(** [num / den] rounded to the nearest integer, ties to even. *)
Definition round_half_even (num den : Z) : Z :=
  let q := num / den in
  match 2 * (num mod den) ?= den with
  | Lt => q
  | Gt => q + 1
  | Eq => if Z.even q then q else q + 1
  end.

(** The quotient of two non-zero integers rounded once, to 53 significant
    bits (fewer below 2^-1022), ties to even; the exponent is not bounded
    above here. *)
Definition rounded_quotient (a b : Z) : float64 :=
  let x := Z.abs a in
  let y := Z.abs b in
  let ex := ulp_exponent x y in
  let num := if 0 <=? ex then x else x * 2 ^ (- ex) in
  let den := if 0 <=? ex then y * 2 ^ ex else y in
  {| fmant := Z.sgn a * Z.sgn b * round_half_even num den; fexp := ex |}.

(** [a / b] on two integers: the correctly rounded binary64 quotient;
    [OverflowError] when that is 2^1024 or more. *)
Definition int_true_divide (a b : Z) : res float64 :=
  if b =? 0 then Raise ModuloByZero
  else if a =? 0 then Ok {| fmant := 0; fexp := 0 |}
  else
    let f := rounded_quotient a b in
    if (971 <? fexp f) || ((fexp f =? 971) && (2 ^ 53 <=? Z.abs (fmant f)))
    then Raise DivisionTooLarge
    else Ok f.

Inductive pyval : Type :=
| PyInt (z : Z)
| PyFloat (f : float64).

(** [round(x)] on a [fractions.Fraction]: to the nearest integer, ties to
    even. *)
Definition py_round (x : Q) : Z :=
  let fl := Qfloor x in
  match Qcompare (x - inject_Z fl) (1 # 2) with
  | Lt => fl
  | Gt => fl + 1
  | Eq => if Z.even fl then fl else fl + 1
  end.

(** ** Public key *)

Module PaillierPublicKey.

Record t : Type := { g : Z; n : Z; nsquare : Z; max_int : Z }.

Definition init (n0 : Z) : t :=
  {| g := n0 + 1; n := n0; nsquare := n0 * n0; max_int := n0 / 3 - 1 |}.

(** [__eq__]: two keys are equal when their moduli are. *)
Definition eqb (a b : t) : bool := n a =? n b.

(** [random.SystemRandom().randrange(1, self.n)]; [rnd] is the value the
    source returns. *)
Definition get_random_lt_n (self : t) (rnd : Z) : res Z :=
  if n self <=? 1 then Raise EmptyRange else Ok rnd.

Definition raw_encrypt (self : t) (plaintext : Z) (r_value : option Z)
           (rnd : Z) : res Z :=
  nude_ciphertext <-
    (if (n self - max_int self <=? plaintext) && (plaintext <? n self)
     then
       let neg_plaintext := n self - plaintext in
       neg_ciphertext <- py_mod (n self * neg_plaintext + 1) (nsquare self) ;;
       invert neg_ciphertext (nsquare self)
     else py_mod (n self * plaintext + 1) (nsquare self)) ;;
  r <- (match r_value with
        | Some v => if v =? 0 then get_random_lt_n self rnd else Ok v
        | None => get_random_lt_n self rnd
        end) ;;
  obfuscator <- powmod r (n self) (nsquare self) ;;
  py_mod (nude_ciphertext * obfuscator) (nsquare self).

End PaillierPublicKey.

(** ** Fixed-point encoding *)

Module EncodedNumber.

Definition BASE : Z := 16.

Record t : Type :=
  { public_key : PaillierPublicKey.t; encoding : Z; exponent : Z }.

(** [encode] for an [int] scalar with [precision=None]. *)
Definition encode (public_key : PaillierPublicKey.t) (scalar : Z)
           (max_exponent : option Z) : res t :=
  let prec_exponent := 0 in
  let exponent :=
    match max_exponent with
    | None => prec_exponent
    | Some m => Z.min m prec_exponent
    end in
  let int_rep :=
    py_round (inject_Z scalar * Qpower (inject_Z BASE) (- exponent)) in
  if Z.abs int_rep >? PaillierPublicKey.max_int public_key
  then Raise IntegerOutOfRange
  else
    enc <- py_mod int_rep (PaillierPublicKey.n public_key) ;;
    Ok {| public_key := public_key; encoding := enc; exponent := exponent |}.

(** The second half of [decode]: [mantissa * BASE ** exponent], an [int]
    for an exponent that is not negative and the [float] quotient
    [mantissa / BASE ** -exponent] otherwise. *)
Definition decode_value (mantissa exponent : Z) : res pyval :=
  if exponent >=? 0
  then Ok (PyInt (mantissa * BASE ^ exponent))
  else
    match int_true_divide mantissa (BASE ^ (- exponent)) with
    | Ok f => Ok (PyFloat f)
    | Raise DivisionTooLarge => Raise ResultTooLarge
    | Raise e => Raise e
    end.

Definition decode (self : t) : res pyval :=
  let pk := public_key self in
  mantissa <-
    (if encoding self >=? PaillierPublicKey.n pk
     then Raise CorruptedNumber
     else if encoding self <=? PaillierPublicKey.max_int pk
     then Ok (encoding self)
     else if encoding self >=?
               PaillierPublicKey.n pk - PaillierPublicKey.max_int pk
     then Ok (encoding self - PaillierPublicKey.n pk)
     else Raise OverflowDetected) ;;
  decode_value mantissa (exponent self).

Definition decrease_exponent_to (self : t) (new_exp : Z) : res t :=
  if new_exp >? exponent self then Raise ExponentNotLower
  else
    let factor := BASE ^ (exponent self - new_exp) in
    new_enc <- py_mod (encoding self * factor)
                      (PaillierPublicKey.n (public_key self)) ;;
    Ok {| public_key := public_key self;
          encoding := new_enc;
          exponent := new_exp |}.

End EncodedNumber.

(** ** Ciphertexts *)

Module EncryptedNumber.

(** [__ciphertext] and [__is_obfuscated] are the two private fields. *)
Record t : Type :=
  { public_key : PaillierPublicKey.t;
    __ciphertext : Z;
    exponent : Z;
    __is_obfuscated : bool }.

(** What the right operand of [+], [*] and [-] can be. *)
Inductive operand : Type :=
| Encrypted (e : t)
| Encoded (e : EncodedNumber.t)
| Scalar (z : Z).

(** [__init__]: every new instance starts not obfuscated. *)
Definition init (public_key : PaillierPublicKey.t) (ciphertext exponent : Z)
  : t :=
  {| public_key := public_key;
     __ciphertext := ciphertext;
     exponent := exponent;
     __is_obfuscated := false |}.

Definition get_ciphertext (self : t) : Z := __ciphertext self.

(** [obfuscate] changes [self] in place: the result is [self] afterwards. *)
Definition obfuscate (self : t) (rnd : Z) : res t :=
  let pk := public_key self in
  r <- PaillierPublicKey.get_random_lt_n pk rnd ;;
  r_pow_n <- powmod r (PaillierPublicKey.n pk) (PaillierPublicKey.nsquare pk) ;;
  c <- py_mod (__ciphertext self * r_pow_n) (PaillierPublicKey.nsquare pk) ;;
  Ok {| public_key := pk;
        __ciphertext := c;
        exponent := exponent self;
        __is_obfuscated := true |}.

(** [ciphertext(be_secure)]: [self] afterwards and the integer returned. *)
Definition ciphertext (self : t) (be_secure : bool) (rnd : Z)
  : res (t * Z) :=
  if be_secure && negb (__is_obfuscated self)
  then self' <- obfuscate self rnd ;; Ok (self', __ciphertext self')
  else Ok (self, __ciphertext self).

Definition _raw_add (self : t) (e_a e_b : Z) : res Z :=
  py_mod (e_a * e_b) (PaillierPublicKey.nsquare (public_key self)).

(** [self.ciphertext(False)] reads [__ciphertext] and leaves [self] as it
    is. *)
Definition _raw_mul (self : t) (plaintext : Z) : res Z :=
  let pk := public_key self in
  if (plaintext <? 0) || (plaintext >=? PaillierPublicKey.n pk)
  then Raise ScalarOutOfBounds
  else if PaillierPublicKey.n pk - PaillierPublicKey.max_int pk <=? plaintext
  then
    neg_c <- invert (__ciphertext self) (PaillierPublicKey.nsquare pk) ;;
    let neg_scalar := PaillierPublicKey.n pk - plaintext in
    powmod neg_c neg_scalar (PaillierPublicKey.nsquare pk)
  else powmod (__ciphertext self) plaintext (PaillierPublicKey.nsquare pk).

Definition __mul__ (self : t) (other : operand) : res t :=
  match other with
  | Encrypted _ => Raise MulEncrypted
  | _ =>
      encoding <-
        (match other with
         | Encoded e => Ok e
         | Scalar z => EncodedNumber.encode (public_key self) z None
         | Encrypted _ => Raise MulEncrypted
         end) ;;
      product <- _raw_mul self (EncodedNumber.encoding encoding) ;;
      let exponent' := exponent self + EncodedNumber.exponent encoding in
      Ok (init (public_key self) product exponent')
  end.

Definition __rmul__ (self : t) (other : operand) : res t :=
  __mul__ self other.

Definition decrease_exponent_to (self : t) (new_exp : Z) : res t :=
  if new_exp >? exponent self then Raise ExponentNotLower
  else
    multiplied <-
      __mul__ self (Scalar (EncodedNumber.BASE ^ (exponent self - new_exp))) ;;
    Ok {| public_key := public_key multiplied;
          __ciphertext := __ciphertext multiplied;
          exponent := new_exp;
          __is_obfuscated := __is_obfuscated multiplied |}.

Definition _add_encoded (self : t) (encoded : EncodedNumber.t) (rnd : Z)
  : res t :=
  if negb (PaillierPublicKey.eqb (public_key self)
                                 (EncodedNumber.public_key encoded))
  then Raise DifferentKeys
  else
    ab <-
      (if exponent self >? EncodedNumber.exponent encoded
       then
         a <- decrease_exponent_to self (EncodedNumber.exponent encoded) ;;
         Ok (a, encoded)
       else if exponent self <? EncodedNumber.exponent encoded
       then
         b <- EncodedNumber.decrease_exponent_to encoded (exponent self) ;;
         Ok (self, b)
       else Ok (self, encoded)) ;;
    let (a, b) := ab in
    encrypted_scalar <-
      PaillierPublicKey.raw_encrypt (public_key a)
        (EncodedNumber.encoding b) (Some 1) rnd ;;
    sum_ciphertext <- _raw_add a (__ciphertext a) encrypted_scalar ;;
    Ok (init (public_key a) sum_ciphertext (exponent a)).

Definition _add_scalar (self : t) (scalar : Z) (rnd : Z) : res t :=
  encoded <-
    EncodedNumber.encode (public_key self) scalar (Some (exponent self)) ;;
  _add_encoded self encoded rnd.

Definition _add_encrypted (self other : t) : res t :=
  if negb (PaillierPublicKey.eqb (public_key self) (public_key other))
  then Raise DifferentKeys
  else
    ab <-
      (if exponent self >? exponent other
       then a <- decrease_exponent_to self (exponent other) ;; Ok (a, other)
       else if exponent self <? exponent other
       then b <- decrease_exponent_to other (exponent self) ;; Ok (self, b)
       else Ok (self, other)) ;;
    let (a, b) := ab in
    sum_ciphertext <- _raw_add a (__ciphertext a) (__ciphertext b) ;;
    Ok (init (public_key a) sum_ciphertext (exponent a)).

Definition __add__ (self : t) (other : operand) (rnd : Z) : res t :=
  match other with
  | Encrypted o => _add_encrypted self o
  | Encoded e => _add_encoded self e rnd
  | Scalar z => _add_scalar self z rnd
  end.

Definition __radd__ (self : t) (other : operand) (rnd : Z) : res t :=
  __add__ self other rnd.

(** [self + (other * -1)]; an [EncodedNumber] has no [*]. *)
Definition __sub__ (self : t) (other : operand) (rnd : Z) : res t :=
  negated <-
    (match other with
     | Encrypted o => m <- __mul__ o (Scalar (-1)) ;; Ok (Encrypted m)
     | Encoded _ => Raise UnsupportedOperand
     | Scalar z => Ok (Scalar (z * -1))
     end) ;;
  __add__ self negated rnd.

(** [other + (self * -1)] for a left operand that is not a ciphertext. *)
Definition __rsub__ (self : t) (other : operand) (rnd : Z) : res t :=
  m <- __mul__ self (Scalar (-1)) ;;
  match other with
  | Encrypted o => __add__ o (Encrypted m) rnd
  | _ => __radd__ m other rnd
  end.

(** *** The instance as a state machine

    A call of a method on an instance, what it returns, and the instance
    afterwards.  Only [obfuscate] and [ciphertext] assign to a field of
    [self]; the other methods read their operands through
    [ciphertext(False)] and build their result with [__init__]. *)
Inductive method : Type :=
| call_add (other : operand)
| call_radd (other : operand)
| call_mul (other : operand)
| call_rmul (other : operand)
| call_sub (other : operand)
| call_rsub (other : operand)
| call_decrease_exponent_to (new_exp : Z)
| call_raw_add (e_a e_b : Z)
| call_raw_mul (plaintext : Z)
| call_get_ciphertext
| call_ciphertext (be_secure : bool)
| call_obfuscate.

Inductive returned : Type :=
| RetNumber (e : t)
| RetInt (z : Z)
| RetNone.

Definition number (x : res t) (self : t) : res (t * returned) :=
  e <- x ;; Ok (self, RetNumber e).

Definition integer (x : res Z) (self : t) : res (t * returned) :=
  z <- x ;; Ok (self, RetInt z).

Definition call (m : method) (self : t) (rnd : Z) : res (t * returned) :=
  match m with
  | call_add other => number (__add__ self other rnd) self
  | call_radd other => number (__radd__ self other rnd) self
  | call_mul other => number (__mul__ self other) self
  | call_rmul other => number (__rmul__ self other) self
  | call_sub other => number (__sub__ self other rnd) self
  | call_rsub other => number (__rsub__ self other rnd) self
  | call_decrease_exponent_to new_exp =>
      number (decrease_exponent_to self new_exp) self
  | call_raw_add e_a e_b => integer (_raw_add self e_a e_b) self
  | call_raw_mul plaintext => integer (_raw_mul self plaintext) self
  | call_get_ciphertext => Ok (self, RetInt (get_ciphertext self))
  | call_ciphertext be_secure =>
      sc <- ciphertext self be_secure rnd ;;
      Ok (fst sc, RetInt (snd sc))
  | call_obfuscate => self' <- obfuscate self rnd ;; Ok (self', RetNone)
  end.

(** A sequence of calls on one instance, each with its own draw; a call
    that raises leaves the instance as it was. *)
Fixpoint run (calls : list (method * Z)) (self : t) : t :=
  match calls with
  | [] => self
  | (m, rnd) :: calls' =>
      match call m self rnd with
      | Ok (self', _) => run calls' self'
      | Raise _ => run calls' self
      end
  end.

(** The methods that build a number from their operands. *)
Definition producer (m : method) : bool :=
  match m with
  | call_add _ | call_radd _ | call_mul _ | call_rmul _
  | call_sub _ | call_rsub _ | call_decrease_exponent_to _ => true
  | _ => false
  end.

End EncryptedNumber.

(** ** Encryption *)

(** [PaillierPublicKey.encrypt_encoded]. *)
Definition encrypt_encoded (self : PaillierPublicKey.t)
           (encoding : EncodedNumber.t) (r_value : option Z) (rnd : Z)
  : res EncryptedNumber.t :=
  let obfuscator := py_or r_value 1 in
  ciphertext <-
    PaillierPublicKey.raw_encrypt self (EncodedNumber.encoding encoding)
      (Some obfuscator) rnd ;;
  let encrypted_number :=
    EncryptedNumber.init self ciphertext (EncodedNumber.exponent encoding) in
  match r_value with
  | None => EncryptedNumber.obfuscate encrypted_number rnd
  | Some _ => Ok encrypted_number
  end.

(** The [value] of [PaillierPublicKey.encrypt]: an encoding or an [int]. *)
Inductive plain : Type :=
| PlainEncoded (e : EncodedNumber.t)
| PlainInt (z : Z).

(** [PaillierPublicKey.encrypt] with [precision=None]. *)
Definition encrypt (self : PaillierPublicKey.t) (value : plain)
           (r_value : option Z) (rnd : Z) : res EncryptedNumber.t :=
  encoding <-
    (match value with
     | PlainEncoded e => Ok e
     | PlainInt z => EncodedNumber.encode self z None
     end) ;;
  encrypt_encoded self encoding r_value rnd.

(** ** Private key *)

Module PaillierPrivateKey.

Record t : Type :=
  { public_key : PaillierPublicKey.t;
    p : Z;
    q : Z;
    psquare : Z;
    qsquare : Z;
    p_inverse : Z;
    hp : Z;
    hq : Z }.

Definition l_function (x p0 : Z) : res Z := py_floordiv (x - 1) p0.

Definition h_function (public_key : PaillierPublicKey.t) (x xsquare : Z)
  : res Z :=
  pw <- powmod (PaillierPublicKey.g public_key) (x - 1) xsquare ;;
  l <- l_function pw x ;;
  invert l x.

Definition init (public_key : PaillierPublicKey.t) (p0 q0 : Z) : res t :=
  if negb (p0 * q0 =? PaillierPublicKey.n public_key) then Raise KeyMismatch
  else if p0 =? q0 then Raise EqualFactors
  else
    let p1 := if q0 <? p0 then q0 else p0 in
    let q1 := if q0 <? p0 then p0 else q0 in
    let psquare := p1 * p1 in
    let qsquare := q1 * q1 in
    p_inverse <- invert p1 q1 ;;
    hp <- h_function public_key p1 psquare ;;
    hq <- h_function public_key q1 qsquare ;;
    Ok {| public_key := public_key;
          p := p1;
          q := q1;
          psquare := psquare;
          qsquare := qsquare;
          p_inverse := p_inverse;
          hp := hp;
          hq := hq |}.

Definition crt (self : t) (mp mq : Z) : res Z :=
  u <- py_mod ((mq - mp) * p_inverse self) (q self) ;;
  Ok (mp + u * p self).

Definition raw_decrypt (self : t) (ciphertext : Z) : res Z :=
  pw_p <- powmod ciphertext (p self - 1) (psquare self) ;;
  l_p <- l_function pw_p (p self) ;;
  decrypt_to_p <- py_mod (l_p * hp self) (p self) ;;
  pw_q <- powmod ciphertext (q self - 1) (qsquare self) ;;
  l_q <- l_function pw_q (q self) ;;
  decrypt_to_q <- py_mod (l_q * hq self) (q self) ;;
  crt self decrypt_to_p decrypt_to_q.

(** [decrypt_encoded] with [Encoding=None]; [ciphertext(be_secure=False)]
    leaves the argument as it is. *)
Definition decrypt_encoded (self : t) (encrypted_number : EncryptedNumber.t)
  : res EncodedNumber.t :=
  if negb (PaillierPublicKey.eqb (public_key self)
             (EncryptedNumber.public_key encrypted_number))
  then Raise DifferentKeys
  else
    encoded <-
      raw_decrypt self (EncryptedNumber.__ciphertext encrypted_number) ;;
    Ok {| EncodedNumber.public_key := public_key self;
          EncodedNumber.encoding := encoded;
          EncodedNumber.exponent :=
            EncryptedNumber.exponent encrypted_number |}.

Definition decrypt (self : t) (encrypted_number : EncryptedNumber.t)
  : res pyval :=
  encoded <- decrypt_encoded self encrypted_number ;;
  EncodedNumber.decode encoded.

End PaillierPrivateKey.

(** ** Specification vocabulary *)


(** [c] is a Paillier ciphertext of the residue [m] under the modulus [n]:
    [(1 + n*m) * r^n] modulo [n^2] for an [r] that is a unit modulo [n]. *)
Definition encrypts (n c m : Z) : Prop :=
  exists r, Z.gcd r n = 1 /\ c mod (n * n) = ((1 + n * m) * r ^ n) mod (n * n).

(** What the constructor establishes for two distinct primes. *)
Definition valid_key (sk : PaillierPrivateKey.t) : Prop :=
  let p := PaillierPrivateKey.p sk in
  let q := PaillierPrivateKey.q sk in
  Z.prime p /\ Z.prime q /\ p < q /\
  PaillierPrivateKey.public_key sk = PaillierPublicKey.init (p * q) /\
  PaillierPrivateKey.psquare sk = p * p /\
  PaillierPrivateKey.qsquare sk = q * q /\
  (p * PaillierPrivateKey.p_inverse sk) mod q = 1 /\
  ((p - 1) * q * PaillierPrivateKey.hp sk) mod p = 1 /\
  ((q - 1) * p * PaillierPrivateKey.hq sk) mod q = 1.

(** The number [e] belongs to the key of modulus [n] and its ciphertext
    encrypts the residue [m]. *)
Definition carries (n : Z) (e : EncryptedNumber.t) (m : Z) : Prop :=
  EncryptedNumber.public_key e = PaillierPublicKey.init n /\
  encrypts n (EncryptedNumber.__ciphertext e) m.

(** Primality by trial division: [n > 1] and no [d >= 2] with [d * d <= n]
    divides [n]. *)
Fixpoint td_loop (fuel : nat) (d n : Z) : bool :=
  match fuel with
  | O => true
  | S fuel' =>
      if n <? d * d then true
      else if n mod d =? 0 then false
      else td_loop fuel' (d + 1) n
  end.

Definition trial_division (n : Z) : bool :=
  (1 <? n) && td_loop (Z.to_nat (Z.sqrt n)) 2 n.

(** The integers [lo, lo + 1, ..., lo + len - 1]. *)
Fixpoint zrange (lo : Z) (len : nat) : list Z :=
  match len with
  | O => []
  | S len' => lo :: zrange (lo + 1) len'
  end.

(** * Properties *)

(** ** The error monad *)

Lemma bind_Ok {A B : Type} (m : res A) (k : A -> res B) (b : B) :
  bind m k = Ok b -> exists a, m = Ok a /\ k a = Ok b.
Proof.
  destruct m as [a | e]; simpl; intros H.
  - exists a; split; [reflexivity | exact H].
  - discriminate H.
Qed.

Lemma py_mod_nonzero (a b : Z) : b <> 0 -> py_mod a b = Ok (a mod b).
Proof.
  intros Hb. unfold py_mod. destruct (Z.eqb_spec b 0); [contradiction | reflexivity].
Qed.

Lemma py_floordiv_nonzero (a b : Z) : b <> 0 -> py_floordiv a b = Ok (a / b).
Proof.
  intros Hb. unfold py_floordiv.
  destruct (Z.eqb_spec b 0); [contradiction | reflexivity].
Qed.

(** ** Modular exponentiation *)

Lemma py_pow3_nonneg (a b c : Z) :
  0 <= b -> c <> 0 -> py_pow3 a b c = Ok (a ^ b mod c).
Proof.
  intros Hb Hc. unfold py_pow3.
  destruct (Z.eqb_spec c 0); [contradiction |].
  destruct (Z.leb_spec 0 b); [reflexivity | lia].
Qed.

Lemma powmod_spec (a b c : Z) :
  0 <= b -> 1 < c -> powmod a b c = Ok (a ^ b mod c).
Proof.
  intros Hb Hc. unfold powmod. destruct (Z.eqb_spec a 1) as [-> | Ha].
  - rewrite Z.pow_1_l by assumption. rewrite Z.mod_1_l by assumption. reflexivity.
  - apply py_pow3_nonneg; lia.
Qed.

(** ** Extended Euclid and modular inverses *)

Section Euclid.

Variables a b : Z.

Lemma eea_loop_spec (fuel : nat) :
  forall r0 r1 s0 s1 t0 t1,
    Z.abs r1 < Z.of_nat fuel ->
    r0 = s0 * a + t0 * b ->
    r1 = s1 * a + t1 * b ->
    exists r s t,
      eea_loop fuel r0 r1 s0 s1 t0 t1 = Some (r, s, t) /\
      r = s * a + t * b /\
      Z.abs r = Z.gcd r0 r1 /\
      (0 < r1 -> 0 < r).
Proof.
  induction fuel as [| fuel IH]; intros r0 r1 s0 s1 t0 t1 Hfuel H0 H1.
  - lia.
  - simpl. destruct (Z.eqb_spec r1 0) as [-> | Hr1].
    + exists r0, s0, t0. repeat split; try assumption.
      * rewrite Z.gcd_0_r. reflexivity.
      * lia.
    + assert (Hrem : r0 - r0 / r1 * r1 = r0 mod r1)
        by (rewrite Z.mod_eq by assumption; ring).
      destruct (IH r1 (r0 - r0 / r1 * r1) s1 (s0 - r0 / r1 * s1)
                   t1 (t0 - r0 / r1 * t1))
        as (r & s & t & Hrun & Hlin & Hgcd & Hpos).
      * rewrite Hrem.
        assert (Z.abs (r0 mod r1) < Z.abs r1)
          by (destruct (Z.lt_total r1 0) as [Hneg | [Hz | Hp]];
              [ pose proof (Z.mod_neg_bound r0 r1 Hneg) | contradiction
              | pose proof (Z.mod_pos_bound r0 r1 Hp) ]; lia).
        lia.
      * assumption.
      * rewrite H0 at 1. rewrite H1 at 2. ring.
      * exists r, s, t. repeat split; try assumption.
        -- rewrite Hgcd, Hrem. rewrite Z.gcd_comm, Z.gcd_mod by assumption.
           apply Z.gcd_comm.
        -- intros Hr1pos.
           destruct (Z.eqb_spec (r0 - r0 / r1 * r1) 0) as [Hz | Hnz].
           ++ rewrite Hz in Hrun. destruct fuel; simpl in Hrun;
                injection Hrun as <- _ _; assumption.
           ++ apply Hpos. rewrite Hrem in *.
              pose proof (Z.mod_pos_bound r0 r1 Hr1pos). lia.
Qed.

Lemma extended_euclidean_algorithm_spec :
  exists r s t,
    extended_euclidean_algorithm a b = Some (r, s, t) /\
    r = s * a + t * b /\
    Z.abs r = Z.gcd a b /\
    (0 < b -> r = Z.gcd a b).
Proof.
  unfold extended_euclidean_algorithm, eea_fuel.
  destruct (eea_loop_spec (S (Z.to_nat (Z.abs b))) a b 1 0 0 1)
    as (r & s & t & Hrun & Hlin & Hgcd & Hpos); try lia.
  exists r, s, t. repeat split; try assumption.
  intros Hb. specialize (Hpos Hb). lia.
Qed.

End Euclid.

(** For a positive modulus [invert] finds the inverse when there is one ... *)
Lemma invert_coprime (a b : Z) :
  0 < b -> Z.gcd a b = 1 ->
  exists x, invert a b = Ok x /\ 0 <= x < b /\ (a * x) mod b = 1 mod b.
Proof.
  intros Hb Hg. unfold invert.
  destruct (extended_euclidean_algorithm_spec a b)
    as (r & s & t & -> & Hlin & _ & Hr).
  rewrite (Hr Hb), Hg. simpl.
  exists (s mod b). split; [apply py_mod_nonzero; lia |].
  split; [apply Z.mod_pos_bound; assumption |].
  rewrite Z.mul_mod_idemp_r by lia.
  replace (a * s) with (1 + (- t) * b) by (rewrite (Hr Hb), Hg in Hlin; lia).
  rewrite Z.mod_add by lia. reflexivity.
Qed.

(** ... and raises when there is none. *)
Lemma invert_not_coprime (a b : Z) :
  0 < b -> Z.gcd a b <> 1 -> invert a b = Raise NoInverse.
Proof.
  intros Hb Hg. unfold invert.
  destruct (extended_euclidean_algorithm_spec a b)
    as (r & s & t & -> & _ & _ & Hr).
  rewrite (Hr Hb). destruct (Z.eqb_spec (Z.gcd a b) 1); [contradiction | reflexivity].
Qed.

(** Inverses modulo [m] are unique among the residues. *)
Lemma inverse_unique (m a x y : Z) :
  0 < m -> (a * x) mod m = 1 mod m -> (a * y) mod m = 1 mod m ->
  0 <= x < m -> 0 <= y < m -> x = y.
Proof.
  intros Hm Hx Hy Bx By.
  assert (E : x mod m = y mod m).
  { rewrite <- (Z.mul_1_r x) at 1. rewrite <- (Z.mul_1_l y) at 1.
    rewrite <- Z.mul_mod_idemp_r, <- Hy by lia.
    rewrite <- (Z.mul_mod_idemp_l 1 y), <- Hx by lia.
    rewrite Z.mul_mod_idemp_r, Z.mul_mod_idemp_l by lia.
    f_equal. ring. }
  rewrite !Z.mod_small in E; assumption.
Qed.

Lemma invert_is (a b x : Z) :
  0 < b -> 0 <= x < b -> (a * x) mod b = 1 mod b -> invert a b = Ok x.
Proof.
  intros Hb Bx Hx.
  assert (Hg : Z.gcd a b = 1).
  { destruct (Z.eq_dec b 1) as [-> | Hb1]; [apply Z.gcd_1_r |].
    apply Z.bezout_1_gcd. exists x, (- ((a * x) / b)).
    rewrite Z.mod_1_l in Hx by lia.
    pose proof (Z.div_mod (a * x) b ltac:(lia)). lia. }
  destruct (invert_coprime a b Hb Hg) as (y & Hrun & By & Hy).
  rewrite Hrun. f_equal. symmetry.
  apply (inverse_unique b a); assumption.
Qed.

(** ** Raw encryption *)

Section RawEncrypt.

Variable n : Z.
Hypothesis Hn : 2 <= n.

Let pk := PaillierPublicKey.init n.

Lemma nsquare_gt_1 : 1 < n * n.
Proof. nia. Qed.

(** The inverse the large-plaintext branch computes is the direct value. *)
Lemma invert_neg_ciphertext (m : Z) :
  invert ((n * (n - m) + 1) mod (n * n)) (n * n) = Ok ((n * m + 1) mod (n * n)).
Proof.
  pose proof nsquare_gt_1 as Hsq.
  apply invert_is; [lia | apply Z.mod_pos_bound; lia |].
  rewrite <- Z.mul_mod by lia.
  replace ((n * (n - m) + 1) * (n * m + 1))
    with (1 + (m * (n - m) + 1) * (n * n)) by ring.
  rewrite Z.mod_add by lia. reflexivity.
Qed.

(** Both branches of [raw_encrypt] give [(n*m + 1) * r^n mod n^2]. *)
Lemma raw_encrypt_spec (m r rnd : Z) :
  r <> 0 ->
  PaillierPublicKey.raw_encrypt pk m (Some r) rnd
  = Ok (((n * m + 1) * r ^ n) mod (n * n)).
Proof.
  intros Hr. pose proof nsquare_gt_1 as Hsq.
  unfold PaillierPublicKey.raw_encrypt. simpl.
  assert (Hnude :
    (if (n - (n / 3 - 1) <=? m) && (m <? n)
     then neg_ciphertext <- py_mod (n * (n - m) + 1) (n * n) ;;
          invert neg_ciphertext (n * n)
     else py_mod (n * m + 1) (n * n))
    = Ok ((n * m + 1) mod (n * n))).
  { destruct ((n - (n / 3 - 1) <=? m) && (m <? n)).
    - rewrite py_mod_nonzero by lia. simpl. apply invert_neg_ciphertext.
    - apply py_mod_nonzero. lia. }
  rewrite Hnude. simpl.
  destruct (Z.eqb_spec r 0) as [| _]; [contradiction |]. simpl.
  rewrite powmod_spec by lia. simpl.
  rewrite py_mod_nonzero by lia.
  rewrite <- Z.mul_mod by lia. reflexivity.
Qed.

End RawEncrypt.

(** C6, as the source has it: for every non-negative exponent, [powmod] is
    [base^exponent mod modulus] when the modulus is above 1, and also for
    any other non-zero modulus when the base is not 1 (for a negative
    modulus this is the residue with the sign of the modulus, not an
    error); with a base other than 1, modulus 0 raises the built-in's
    [ValueError]. *)
Theorem C6_powmod (a b c : Z) :
  0 <= b ->
  (1 < c -> powmod a b c = Ok (a ^ b mod c)) /\
  (a <> 1 -> c <> 0 -> powmod a b c = Ok (a ^ b mod c)) /\
  (a <> 1 -> powmod a b 0 = Raise PowZeroModulus).
Proof.
  intros Hb. repeat split.
  - intros Hc. apply powmod_spec; assumption.
  - intros Ha Hc. unfold powmod.
    destruct (Z.eqb_spec a 1); [contradiction |].
    apply py_pow3_nonneg; assumption.
  - intros Ha. unfold powmod.
    destruct (Z.eqb_spec a 1); [contradiction | reflexivity].
Qed.

Lemma C6_powmod_witness :
  0 <= 5 /\
  powmod 3 5 7 = Ok (3 ^ 5 mod 7) /\ powmod 1 5 7 = Ok (1 ^ 5 mod 7) /\
  powmod 2 5 (-3) = Ok (2 ^ 5 mod -3) /\
  powmod 2 5 0 = Raise PowZeroModulus.
Proof.
  split; [lia |].
  destruct (C6_powmod 3 5 7 ltac:(lia)) as (H1 & _).
  destruct (C6_powmod 1 5 7 ltac:(lia)) as (H1' & _).
  destruct (C6_powmod 2 5 (-3) ltac:(lia)) as (_ & H2 & _).
  destruct (C6_powmod 2 5 0 ltac:(lia)) as (_ & _ & H3).
  split; [apply H1; lia |]. split; [apply H1'; lia |].
  split; [apply H2; lia | apply H3; lia].
Defined.

(** C6 as it is worded fails: with a negative modulus [powmod] returns a
    residue, here 2^5 mod -3 = -1, where the claim has it fail. *)
Lemma C6_powmod_counterexample :
  ~ (forall a b c : Z, 0 <= b ->
       (0 < c -> powmod a b c = Ok (a ^ b mod c)) /\
       (c <= 0 -> exists e, powmod a b c = Raise e)).
Proof.
  intros H. destruct (H 2 5 (-3) ltac:(lia)) as (_ & H2).
  destruct (H2 ltac:(lia)) as (e & He). discriminate He.
Qed.

(** C3: the inverse-based shortcut of [raw_encrypt] equals the direct value
    on the large range, so for [m] in [0, n) and [r] in [1, n) the result is
    [(n*m + 1) * r^n mod n^2]. *)
Theorem C3_raw_encrypt_branches_agree (n m r rnd : Z) :
  let pk := PaillierPublicKey.init n in
  (n - PaillierPublicKey.max_int pk <= m < n ->
   invert ((n * (n - m) + 1) mod PaillierPublicKey.nsquare pk)
          (PaillierPublicKey.nsquare pk)
   = Ok ((n * m + 1) mod PaillierPublicKey.nsquare pk)) /\
  (0 <= m < n -> 1 <= r < n ->
   PaillierPublicKey.raw_encrypt pk m (Some r) rnd
   = Ok (((n * m + 1) * r ^ n) mod (n * n))).
Proof.
  simpl. split.
  - intros Hm. apply invert_neg_ciphertext.
    assert (0 < n / 3 - 1) by lia.
    pose proof (Z.div_mod n 3 ltac:(lia)).
    destruct (Z.lt_ge_cases n 0) as [Hneg | Hpos].
    + pose proof (Z.div_lt_upper_bound n 3 0 ltac:(lia) ltac:(lia)). lia.
    + pose proof (Z.mod_pos_bound n 3 ltac:(lia)). lia.
  - intros Hm Hr. apply raw_encrypt_spec; lia.
Qed.

Lemma C3_raw_encrypt_branches_agree_witness :
  invert ((15 * (15 - 13) + 1) mod 225) 225 = Ok ((15 * 13 + 1) mod 225) /\
  PaillierPublicKey.raw_encrypt (PaillierPublicKey.init 15) 13 (Some 2) 7
  = Ok (((15 * 13 + 1) * 2 ^ 15) mod (15 * 15)).
Proof.
  destruct (C3_raw_encrypt_branches_agree 15 13 2 7) as (H1 & H2).
  split; [apply H1; simpl; lia | apply H2; lia].
Defined.

(** ** Decoding *)

Lemma int_true_divide_raises (a b : Z) (e : exn) :
  int_true_divide a b = Raise e -> e = ModuloByZero \/ e = DivisionTooLarge.
Proof.
  unfold int_true_divide.
  destruct (b =? 0); [intros [= <-]; left; reflexivity |].
  destruct (a =? 0); [discriminate |]. cbv zeta.
  match goal with
  | |- (if ?c then _ else _) = _ -> _ => destruct c
  end; [intros [= <-]; right; reflexivity | discriminate].
Qed.

(** The second half of [decode] raises neither of the two errors of the
    first half. *)
Lemma decode_value_raises (mantissa exponent : Z) (e : exn) :
  EncodedNumber.decode_value mantissa exponent = Raise e ->
  e = ModuloByZero \/ e = ResultTooLarge.
Proof.
  unfold EncodedNumber.decode_value.
  destruct (exponent >=? 0); [discriminate |].
  destruct (int_true_divide mantissa (EncodedNumber.BASE ^ (- exponent)))
    as [f | e'] eqn:Hdiv; [discriminate |].
  destruct (int_true_divide_raises _ _ _ Hdiv) as [-> | ->];
    intros [= <-]; [left | right]; reflexivity.
Qed.

(** The two halves of the range never overlap below [n]. *)
Lemma max_int_lt_half (n : Z) : 0 < n / 3 - 1 -> n / 3 - 1 < n - (n / 3 - 1).
Proof.
  intros H. pose proof (Z.div_mod n 3 ltac:(lia)).
  destruct (Z.lt_ge_cases n 0) as [Hneg | Hpos].
  - pose proof (Z.div_lt_upper_bound n 3 0 ltac:(lia) ltac:(lia)). lia.
  - pose proof (Z.mod_pos_bound n 3 ltac:(lia)). lia.
Qed.

(** C4: [decode] raises the corruption error exactly for a residue at or
    above [n]; below [n] a residue up to [max_int] is positive (mantissa =
    residue), one from [n - max_int] on is negative (mantissa = residue -
    n), and the overflow error is raised exactly in the dead zone between
    (for [n >= 3] the dead zone lies below [n], and this holds for every
    residue). *)
Theorem C4_decode_classification (n e x : Z) :
  let pk := PaillierPublicKey.init n in
  let self :=
    {| EncodedNumber.public_key := pk;
       EncodedNumber.encoding := e;
       EncodedNumber.exponent := x |} in
  let max_int := PaillierPublicKey.max_int pk in
  (EncodedNumber.decode self = Raise CorruptedNumber <-> n <= e) /\
  (e < n -> e <= max_int ->
   EncodedNumber.decode self = EncodedNumber.decode_value e x) /\
  (e < n -> n - max_int <= e ->
   EncodedNumber.decode self = EncodedNumber.decode_value (e - n) x) /\
  (e < n \/ 3 <= n ->
   (EncodedNumber.decode self = Raise OverflowDetected <->
    max_int < e < n - max_int)).
Proof.
  assert (Hthird : 3 <= n -> 0 <= n / 3 - 1).
  { intros H3. pose proof (Z.div_le_lower_bound n 3 1 ltac:(lia) ltac:(lia)).
    lia. }
  cbv zeta. unfold EncodedNumber.decode. simpl.
  destruct (Z.geb_spec e n) as [Hge | Hlt]; simpl.
  - split; [split; [lia | reflexivity] |].
    split; [intros; lia |]. split; [intros; lia |].
    intros [Hlt | H3]; [lia |]. specialize (Hthird H3).
    split; [discriminate | lia].
  - destruct (Z.leb_spec e (n / 3 - 1)) as [Hpos | Hnpos]; simpl.
    + split; [| split; [| split]].
      * split; [intros H | lia].
        destruct (decode_value_raises _ _ _ H); discriminate.
      * reflexivity.
      * intros _ Hneg. pose proof (max_int_lt_half n ltac:(lia)). lia.
      * intros _. split; [intros H | lia].
        destruct (decode_value_raises _ _ _ H); discriminate.
    + destruct (Z.geb_spec e (n - (n / 3 - 1))) as [Hneg | Hdead]; simpl.
      * split; [| split; [| split]].
        -- split; [intros H | lia].
           destruct (decode_value_raises _ _ _ H); discriminate.
        -- intros; lia.
        -- reflexivity.
        -- intros _. split; [intros H | lia].
           destruct (decode_value_raises _ _ _ H); discriminate.
      * split; [| split; [| split]].
        -- split; [discriminate | lia].
        -- intros; lia.
        -- intros; lia.
        -- intros _. split; [lia | reflexivity].
Qed.

Lemma C4_decode_classification_witness :
  EncodedNumber.decode
    {| EncodedNumber.public_key := PaillierPublicKey.init 15;
       EncodedNumber.encoding := 16;
       EncodedNumber.exponent := 0 |} = Raise CorruptedNumber /\
  EncodedNumber.decode
    {| EncodedNumber.public_key := PaillierPublicKey.init 15;
       EncodedNumber.encoding := 7;
       EncodedNumber.exponent := 0 |} = Raise OverflowDetected /\
  EncodedNumber.decode
    {| EncodedNumber.public_key := PaillierPublicKey.init 15;
       EncodedNumber.encoding := 12;
       EncodedNumber.exponent := 0 |} = EncodedNumber.decode_value (12 - 15) 0.
Proof.
  destruct (C4_decode_classification 15 16 0) as (H1 & _).
  destruct (C4_decode_classification 15 7 0) as (_ & _ & _ & H2).
  destruct (C4_decode_classification 15 12 0) as (_ & _ & H3 & _).
  split; [apply H1; lia |].
  split; [apply H2; [left; lia | simpl; lia] | apply H3; simpl; lia].
Defined.

(** ** The private key built by the constructor *)

Lemma powmod_total (a b c : Z) :
  0 <= b -> c <> 0 -> exists v, powmod a b c = Ok v.
Proof.
  intros Hb Hc. unfold powmod. destruct (a =? 1).
  - exists 1. reflexivity.
  - exists (a ^ b mod c). apply py_pow3_nonneg; assumption.
Qed.

Lemma init_fields (pk : PaillierPublicKey.t) (p0 q0 : Z)
      (sk : PaillierPrivateKey.t) :
  PaillierPrivateKey.init pk p0 q0 = Ok sk ->
  let p1 := if q0 <? p0 then q0 else p0 in
  let q1 := if q0 <? p0 then p0 else q0 in
  p0 * q0 = PaillierPublicKey.n pk /\ p0 <> q0 /\
  PaillierPrivateKey.public_key sk = pk /\
  PaillierPrivateKey.p sk = p1 /\ PaillierPrivateKey.q sk = q1 /\
  PaillierPrivateKey.psquare sk = p1 * p1 /\
  PaillierPrivateKey.qsquare sk = q1 * q1 /\
  invert p1 q1 = Ok (PaillierPrivateKey.p_inverse sk) /\
  PaillierPrivateKey.h_function pk p1 (p1 * p1) = Ok (PaillierPrivateKey.hp sk) /\
  PaillierPrivateKey.h_function pk q1 (q1 * q1) = Ok (PaillierPrivateKey.hq sk).
Proof.
  unfold PaillierPrivateKey.init.
  destruct (Z.eqb_spec (p0 * q0) (PaillierPublicKey.n pk)) as [Hn | ];
    [| discriminate]. simpl.
  destruct (Z.eqb_spec p0 q0) as [| Hne]; [discriminate |].
  intros H.
  apply bind_Ok in H as (pinv & Hpinv & H).
  apply bind_Ok in H as (hp & Hhp & H).
  apply bind_Ok in H as (hq & Hhq & H).
  injection H as <-. simpl. repeat split; assumption.
Qed.

(** C10: a key the constructor accepts for positive factors has
    [0 < p < q], and [raw_decrypt] returns, for every ciphertext, a residue
    in [0, n), which [decode] never reports as corrupted. *)
Theorem C10_raw_decrypt_range (pk : PaillierPublicKey.t) (p0 q0 c : Z)
        (sk : PaillierPrivateKey.t) :
  0 < p0 -> 0 < q0 ->
  PaillierPrivateKey.init pk p0 q0 = Ok sk ->
  0 < PaillierPrivateKey.p sk < PaillierPrivateKey.q sk /\
  exists m,
    PaillierPrivateKey.raw_decrypt sk c = Ok m /\
    0 <= m < PaillierPublicKey.n pk /\
    m < PaillierPrivateKey.p sk * PaillierPrivateKey.q sk /\
    forall x,
      EncodedNumber.decode
        {| EncodedNumber.public_key := pk;
           EncodedNumber.encoding := m;
           EncodedNumber.exponent := x |} <> Raise CorruptedNumber.
Proof.
  intros Hp0 Hq0 Hinit.
  destruct (init_fields _ _ _ _ Hinit)
    as (Hn & Hne & Hpk & Hp & Hq & Hpsq & Hqsq & _).
  set (p := PaillierPrivateKey.p sk) in *.
  set (q := PaillierPrivateKey.q sk) in *.
  assert (Hpq : 0 < p < q) by (destruct (Z.ltb_spec q0 p0); lia).
  assert (Hnpq : PaillierPublicKey.n pk = p * q)
    by (destruct (Z.ltb_spec q0 p0); subst p q; lia).
  split; [exact Hpq |].
  unfold PaillierPrivateKey.raw_decrypt, PaillierPrivateKey.l_function,
    PaillierPrivateKey.crt.
  fold p q. rewrite Hpsq, Hqsq, <- Hp, <- Hq. fold p q.
  destruct (powmod_total c (p - 1) (p * p)) as (vp & ->); [lia | nia |].
  destruct (powmod_total c (q - 1) (q * q)) as (vq & ->); [lia | nia |].
  simpl. rewrite !py_floordiv_nonzero by lia. simpl.
  rewrite !py_mod_nonzero by lia. simpl.
  rewrite py_mod_nonzero by lia. simpl.
  set (mp := ((vp - 1) / p * PaillierPrivateKey.hp sk) mod p).
  set (mq := ((vq - 1) / q * PaillierPrivateKey.hq sk) mod q).
  set (u := ((mq - mp) * PaillierPrivateKey.p_inverse sk) mod q).
  assert (Hmp : 0 <= mp < p) by (apply Z.mod_pos_bound; lia).
  assert (Hu : 0 <= u < q) by (apply Z.mod_pos_bound; lia).
  assert (Hrange : 0 <= mp + u * p < p * q) by nia.
  exists (mp + u * p). split; [reflexivity |].
  split; [lia |]. split; [lia |].
  intros x H.
  unfold EncodedNumber.decode in H. simpl in H.
  destruct (Z.geb_spec (mp + u * p) (PaillierPublicKey.n pk)); [lia |].
  simpl in H.
  repeat match type of H with
         | context [if ?b then _ else _] => destruct b; simpl in H
         end;
    try discriminate H;
    destruct (decode_value_raises _ _ _ H); discriminate.
Qed.

Lemma C10_raw_decrypt_range_witness :
  exists sk,
    PaillierPrivateKey.init (PaillierPublicKey.init 15) 5 3 = Ok sk /\
    0 < PaillierPrivateKey.p sk < PaillierPrivateKey.q sk /\
    exists m, PaillierPrivateKey.raw_decrypt sk 162 = Ok m /\ 0 <= m < 15.
Proof.
  eexists. split; [reflexivity |].
  destruct (C10_raw_decrypt_range (PaillierPublicKey.init 15) 5 3 162 _
              ltac:(lia) ltac:(lia) eq_refl) as (Hpq & m & Hrun & Hm & _).
  split; [exact Hpq |]. exists m. split; [exact Hrun | exact Hm].
Defined.

(** ** Obfuscation and the flag *)

Ltac inv_bind H :=
  repeat match type of H with
         | bind _ _ = Ok _ =>
             let x := fresh "x" in
             let Hx := fresh "Hx" in
             apply bind_Ok in H as (x & Hx & H)
         end.

Lemma obfuscate_spec (n : Z) (self : EncryptedNumber.t) (rnd : Z) :
  2 <= n ->
  EncryptedNumber.public_key self = PaillierPublicKey.init n ->
  EncryptedNumber.obfuscate self rnd
  = Ok {| EncryptedNumber.public_key := PaillierPublicKey.init n;
          EncryptedNumber.__ciphertext :=
            (EncryptedNumber.__ciphertext self * (rnd ^ n mod (n * n)))
              mod (n * n);
          EncryptedNumber.exponent := EncryptedNumber.exponent self;
          EncryptedNumber.__is_obfuscated := true |}.
Proof.
  intros Hn Hpk. pose proof (nsquare_gt_1 n Hn) as Hsq.
  unfold EncryptedNumber.obfuscate, PaillierPublicKey.get_random_lt_n.
  rewrite Hpk. simpl.
  destruct (Z.leb_spec n 1); [lia |]. simpl.
  rewrite powmod_spec by lia. simpl.
  rewrite py_mod_nonzero by lia. reflexivity.
Qed.






Section Flag.

Import EncryptedNumber.

Lemma mul_fresh (self : t) (other : operand) (e : t) :
  __mul__ self other = Ok e -> __is_obfuscated e = false.
Proof.
  unfold __mul__. destruct other; try discriminate;
    intros H; inv_bind H; injection H as <-; reflexivity.
Qed.

Lemma decrease_exponent_to_fresh (self : t) (new_exp : Z) (e : t) :
  decrease_exponent_to self new_exp = Ok e -> __is_obfuscated e = false.
Proof.
  unfold decrease_exponent_to. destruct (new_exp >? exponent self);
    [discriminate |].
  intros H. inv_bind H. injection H as <-. simpl.
  eapply mul_fresh. eassumption.
Qed.

Lemma add_encrypted_fresh (self other e : t) :
  _add_encrypted self other = Ok e -> __is_obfuscated e = false.
Proof.
  unfold _add_encrypted. destruct (negb _); [discriminate |].
  intros H. apply bind_Ok in H as ([a b] & _ & H).
  inv_bind H. injection H as <-. reflexivity.
Qed.

Lemma add_encoded_fresh (self : t) (encoded : EncodedNumber.t) (rnd : Z)
      (e : t) :
  _add_encoded self encoded rnd = Ok e -> __is_obfuscated e = false.
Proof.
  unfold _add_encoded. destruct (negb _); [discriminate |].
  intros H. apply bind_Ok in H as ([a b] & _ & H).
  inv_bind H. injection H as <-. reflexivity.
Qed.

Lemma add_fresh (self : t) (other : operand) (rnd : Z) (e : t) :
  __add__ self other rnd = Ok e -> __is_obfuscated e = false.
Proof.
  destruct other; simpl.
  - apply add_encrypted_fresh.
  - apply add_encoded_fresh.
  - unfold _add_scalar. intros H. inv_bind H.
    eapply add_encoded_fresh. eassumption.
Qed.

Lemma sub_fresh (self : t) (other : operand) (rnd : Z) (e : t) :
  __sub__ self other rnd = Ok e -> __is_obfuscated e = false.
Proof.
  unfold __sub__. intros H. inv_bind H. eapply add_fresh. eassumption.
Qed.

Lemma rsub_fresh (self : t) (other : operand) (rnd : Z) (e : t) :
  __rsub__ self other rnd = Ok e -> __is_obfuscated e = false.
Proof.
  unfold __rsub__, __radd__. intros H. inv_bind H.
  destruct other; eapply add_fresh; eassumption.
Qed.

Lemma producer_fresh (m : method) (self self' : t) (ret : returned)
      (rnd : Z) :
  producer m = true ->
  call m self rnd = Ok (self', ret) ->
  self' = self /\ exists e, ret = RetNumber e /\ __is_obfuscated e = false.
Proof.
  destruct m; simpl; try discriminate; intros _ H;
    unfold number in H; inv_bind H; injection H as <- <-;
    (split; [reflexivity |]); eexists; (split; [reflexivity |]).
  - eapply add_fresh; eassumption.
  - eapply add_fresh; eassumption.
  - eapply mul_fresh; eassumption.
  - eapply mul_fresh; eassumption.
  - eapply sub_fresh; eassumption.
  - eapply rsub_fresh; eassumption.
  - eapply decrease_exponent_to_fresh; eassumption.
Qed.

Lemma obfuscate_sets (self self' : t) (rnd : Z) :
  obfuscate self rnd = Ok self' -> __is_obfuscated self' = true.
Proof.
  unfold obfuscate. intros H. inv_bind H. injection H as <-. reflexivity.
Qed.

(** A call never clears the flag, and only the two obfuscating calls set
    it. *)
Lemma call_flag (m : method) (self self' : t) (ret : returned) (rnd : Z) :
  call m self rnd = Ok (self', ret) ->
  (__is_obfuscated self = true -> __is_obfuscated self' = true) /\
  (__is_obfuscated self = false -> __is_obfuscated self' = true ->
   m = call_obfuscate \/ m = call_ciphertext true).
Proof.
  intros H.
  destruct (producer m) eqn:Hprod.
  - destruct (producer_fresh _ _ _ _ _ Hprod H) as (-> & _).
    split; [tauto | congruence].
  - destruct m; simpl in Hprod; try discriminate Hprod; simpl in H.
    + unfold integer in H. inv_bind H. injection H as <- _.
      split; [tauto | congruence].
    + unfold integer in H. inv_bind H. injection H as <- _.
      split; [tauto | congruence].
    + injection H as <- _. split; [tauto | congruence].
    + inv_bind H. injection H as <- _. unfold ciphertext in Hx.
      destruct be_secure; simpl in Hx.
      * destruct (__is_obfuscated self) eqn:Hobf; simpl in Hx.
        -- injection Hx as <-. simpl. split; [tauto | congruence].
        -- inv_bind Hx. injection Hx as <-. simpl.
           split; [congruence | intros; right; reflexivity].
      * injection Hx as <-. simpl. split; [tauto | congruence].
    + inv_bind H. injection H as <- _.
      split; [intros _; eapply obfuscate_sets; eassumption |].
      intros; left; reflexivity.
Qed.

Lemma run_keeps_obfuscated (calls : list (method * Z)) :
  forall self,
    __is_obfuscated self = true -> __is_obfuscated (run calls self) = true.
Proof.
  induction calls as [| [m rnd] calls IH]; intros self Hobf; simpl.
  - exact Hobf.
  - destruct (call m self rnd) as [[self' ret] | e] eqn:Hcall.
    + apply IH. destruct (call_flag _ _ _ _ _ Hcall) as (Hkeep & _).
      apply Hkeep. exact Hobf.
    + apply IH. exact Hobf.
Qed.

End Flag.

(** C7: the flag has two states.  Every producer ([+], [*], [-], their
    reflected forms and [decrease_exponent_to]) leaves [self] as it is and
    returns a fresh number; [obfuscate] and [ciphertext(True)] leave the
    instance obfuscated; a call that takes an instance from fresh to
    obfuscated is one of these two; and no call, so no sequence of calls,
    takes an obfuscated instance back to fresh. *)
Theorem C7_obfuscation_flag :
  (forall m self rnd self' ret,
     EncryptedNumber.call m self rnd = Ok (self', ret) ->
     (EncryptedNumber.producer m = true ->
      self' = self /\
      exists e, ret = EncryptedNumber.RetNumber e /\
                EncryptedNumber.__is_obfuscated e = false) /\
     (m = EncryptedNumber.call_obfuscate \/
      m = EncryptedNumber.call_ciphertext true ->
      EncryptedNumber.__is_obfuscated self' = true) /\
     (EncryptedNumber.__is_obfuscated self = false ->
      EncryptedNumber.__is_obfuscated self' = true ->
      m = EncryptedNumber.call_obfuscate \/
      m = EncryptedNumber.call_ciphertext true) /\
     (EncryptedNumber.__is_obfuscated self = true ->
      EncryptedNumber.__is_obfuscated self' = true)) /\
  (forall pk c x, EncryptedNumber.__is_obfuscated
                    (EncryptedNumber.init pk c x) = false) /\
  (forall calls self,
     EncryptedNumber.__is_obfuscated self = true ->
     EncryptedNumber.__is_obfuscated (EncryptedNumber.run calls self) = true).
Proof.
  split; [| split].
  - intros m self rnd self' ret H.
    destruct (call_flag _ _ _ _ _ H) as (Hkeep & Hset).
    split; [| split; [| split]].
    + intros Hprod. eapply producer_fresh; eassumption.
    + intros [-> | ->]; simpl in H.
      * inv_bind H. injection H as <- _. eapply obfuscate_sets. eassumption.
      * inv_bind H. injection H as <- _.
        unfold EncryptedNumber.ciphertext in Hx. simpl in Hx.
        destruct (EncryptedNumber.__is_obfuscated self) eqn:Hobf; simpl in Hx.
        -- injection Hx as <-. exact Hobf.
        -- inv_bind Hx. injection Hx as <-. simpl.
           eapply obfuscate_sets. eassumption.
    + exact Hset.
    + exact Hkeep.
  - reflexivity.
  - intros calls self. apply run_keeps_obfuscated.
Qed.

Lemma C7_obfuscation_flag_witness :
  exists self' ret,
    EncryptedNumber.call EncryptedNumber.call_obfuscate
      (EncryptedNumber.init (PaillierPublicKey.init 15) 16 0) 2
    = Ok (self', ret) /\
    EncryptedNumber.__is_obfuscated self' = true /\
    EncryptedNumber.__is_obfuscated
      (EncryptedNumber.run
         [(EncryptedNumber.call_ciphertext false, 4);
          (EncryptedNumber.call_mul (EncryptedNumber.Scalar 2), 4)]
         self') = true.
Proof.
  destruct C7_obfuscation_flag as (Hcall & _ & Hrun).
  do 2 eexists. split; [reflexivity |].
  assert (Hobf : EncryptedNumber.__is_obfuscated
                   {| EncryptedNumber.public_key := PaillierPublicKey.init 15;
                      EncryptedNumber.__ciphertext := (16 * (2 ^ 15 mod 225)) mod 225;
                      EncryptedNumber.exponent := 0;
                      EncryptedNumber.__is_obfuscated := true |} = true)
    by reflexivity.
  split; [exact Hobf | apply Hrun; exact Hobf].
Defined.

(** ** Number theory behind decryption *)

(** [(1 + x)^k = 1 + k*x] modulo any divisor of [x^2]. *)
Lemma pow_one_plus (M x k : Z) :
  0 <= k -> (M | x * x) -> (1 + x) ^ k mod M = (1 + k * x) mod M.
Proof.
  intros Hk [c Hc]. revert k Hk.
  apply natlike_ind.
  - reflexivity.
  - intros k Hk IH. rewrite Z.pow_succ_r by assumption.
    apply Z.cong_iff_ex in IH as [d Hd]. apply Z.cong_iff_ex.
    exists ((1 + x) * d + k * c).
    replace ((1 + x) * (1 + x) ^ k - (1 + Z.succ k * x))
      with ((1 + x) * ((1 + x) ^ k - (1 + k * x)) + k * (x * x)) by ring.
    rewrite Hd, Hc. ring.
Qed.

(** Fermat's little theorem, lifted to the square of the prime. *)
Lemma fermat_square (p r : Z) :
  Z.prime p -> ~ (p | r) -> r ^ (p * (p - 1)) mod (p * p) = 1.
Proof.
  intros Hp Hr. pose proof (Z.prime_ge_2 p Hp) as Hp2.
  assert (Hf : r ^ (p - 1) mod p = 1).
  { apply Z.fermat_nz; [assumption |].
    intros H. apply Hr. apply Z.mod_divide; [lia | assumption]. }
  assert (Hk : r ^ (p - 1) = 1 + p * (r ^ (p - 1) / p)).
  { pose proof (Z.div_mod (r ^ (p - 1)) p ltac:(lia)). lia. }
  rewrite (Z.mul_comm p), Z.pow_mul_r by lia.
  rewrite Hk. rewrite pow_one_plus.
  - replace (1 + p * (p * (r ^ (p - 1) / p)))
      with (1 + (r ^ (p - 1) / p) * (p * p)) by ring.
    rewrite Z.mod_add by nia. apply Z.mod_1_l. nia.
  - lia.
  - exists (r ^ (p - 1) / p * (r ^ (p - 1) / p)). ring.
Qed.

Section Factor.

(** One prime factor [p] of [n = p * q]; the other factor enters only
    through [q], so the section serves both halves of the decryption. *)
Variables p q : Z.
Hypothesis Hp : Z.prime p.
Hypothesis Hq : 0 < q.
Hypothesis Hpq : ~ (p | q).

Let n := p * q.

Lemma p_gt_1 : 1 < p.
Proof. pose proof (Z.prime_ge_2 p Hp). lia. Qed.

Lemma psquare_divides_nsquare : (p * p | n * n).
Proof. exists (q * q). unfold n. ring. Qed.

(** What [ciphertext ^ (p - 1)] is modulo [p^2]. *)
Lemma power_residue (c m r : Z) :
  c mod (n * n) = ((1 + n * m) * r ^ n) mod (n * n) ->
  ~ (p | r) ->
  c ^ (p - 1) mod (p * p) = (1 + p * ((p - 1) * q * m)) mod (p * p).
Proof.
  intros Hc Hr. pose proof p_gt_1 as Hp1.
  assert (Hpp : p * p <> 0) by nia.
  rewrite <- Z.mod_pow_l.
  rewrite <- (Z.mod_mod_divide c (n * n) (p * p))
    by apply psquare_divides_nsquare.
  rewrite Hc. rewrite Z.mod_mod_divide by apply psquare_divides_nsquare.
  rewrite Z.mod_pow_l.
  rewrite Z.pow_mul_l. rewrite Z.mul_mod by assumption.
  assert (Hrn : (r ^ n) ^ (p - 1) mod (p * p) = 1).
  { rewrite <- Z.pow_mul_r by (unfold n; nia).
    replace (n * (p - 1)) with (p * (p - 1) * q) by (unfold n; ring).
    rewrite Z.pow_mul_r by nia.
    rewrite <- Z.mod_pow_l. rewrite fermat_square by assumption.
    rewrite Z.pow_1_l by lia. apply Z.mod_1_l. nia. }
  rewrite Hrn, Z.mul_1_r, Z.mod_mod by assumption.
  rewrite pow_one_plus.
  - f_equal. unfold n. ring.
  - lia.
  - exists (q * m * (q * m)). unfold n. ring.
Qed.

(** [L] undoes the embedding [A |-> 1 + p*A]. *)
Lemma l_function_spec (A : Z) :
  PaillierPrivateKey.l_function ((1 + p * A) mod (p * p)) p = Ok (A mod p).
Proof.
  pose proof p_gt_1 as Hp1.
  unfold PaillierPrivateKey.l_function.
  rewrite py_floordiv_nonzero by lia. f_equal.
  pose proof (Z.mod_pos_bound A p ltac:(lia)) as HA.
  assert (E : (1 + p * A) mod (p * p) = 1 + p * (A mod p)).
  { rewrite (Z.div_mod A p) at 1 by lia.
    replace (1 + p * (p * (A / p) + A mod p))
      with (1 + p * (A mod p) + (A / p) * (p * p)) by ring.
    rewrite Z.mod_add by nia. apply Z.mod_small. nia. }
  rewrite E. replace (1 + p * (A mod p) - 1) with (A mod p * p) by ring.
  apply Z.div_mul. lia.
Qed.

Lemma coprime_pred_q : Z.gcd (((p - 1) * q) mod p) p = 1.
Proof.
  pose proof p_gt_1 as Hp1.
  apply Z.coprime_mod_l_iff. apply Z.coprime_mul_l.
  - unfold Z.coprime. rewrite Z.gcd_comm.
    apply Z.coprime_prime_small; [assumption | lia].
  - unfold Z.coprime. rewrite Z.gcd_comm.
    apply Z.coprime_prime_l; assumption.
Qed.

(** The helper constant [h_function] computes. *)
Lemma h_function_spec :
  exists h,
    PaillierPrivateKey.h_function (PaillierPublicKey.init n) p (p * p) = Ok h /\
    0 <= h < p /\ ((p - 1) * q * h) mod p = 1.
Proof.
  pose proof p_gt_1 as Hp1.
  unfold PaillierPrivateKey.h_function. simpl.
  rewrite powmod_spec by nia. simpl.
  rewrite (power_residue (n + 1) 1 1).
  - rewrite l_function_spec. simpl.
    destruct (invert_coprime ((p - 1) * q * 1 mod p) p ltac:(lia))
      as (h & Hrun & Hh & Hinv).
    + rewrite Z.mul_1_r. apply coprime_pred_q.
    + exists h. split; [exact Hrun |]. split; [exact Hh |].
      rewrite Z.mul_mod_idemp_l in Hinv by lia.
      rewrite Z.mul_1_r in Hinv. rewrite Hinv. apply Z.mod_1_l. lia.
  - rewrite Z.pow_1_l by (unfold n; nia). f_equal. ring.
  - intros H. apply Z.divide_1_r_nonneg in H; lia.
Qed.

(** The [p] half of [raw_decrypt] recovers the plaintext modulo [p]. *)
Lemma half_decrypt {A : Type} (c m r h : Z) (K : Z -> res A) :
  c mod (n * n) = ((1 + n * m) * r ^ n) mod (n * n) ->
  ~ (p | r) ->
  ((p - 1) * q * h) mod p = 1 ->
  (pw <- powmod c (p - 1) (p * p) ;;
   l <- PaillierPrivateKey.l_function pw p ;;
   d <- py_mod (l * h) p ;;
   K d) = K (m mod p).
Proof.
  intros Hc Hr Hh. pose proof p_gt_1 as Hp1.
  rewrite powmod_spec by nia. simpl.
  rewrite (power_residue c m r) by assumption.
  rewrite l_function_spec. simpl.
  rewrite py_mod_nonzero by lia. simpl. f_equal.
  rewrite Z.mul_mod_idemp_l by lia.
  replace ((p - 1) * q * m * h) with (m * ((p - 1) * q * h)) by ring.
  rewrite <- Z.mul_mod_idemp_r by lia. rewrite Hh, Z.mul_1_r. reflexivity.
Qed.

End Factor.

(** ** Chinese remaindering *)

Lemma crt_unique (p q x y : Z) :
  0 < p -> 0 < q -> Z.gcd q p = 1 ->
  0 <= x < p * q -> 0 <= y < p * q ->
  x mod p = y mod p -> x mod q = y mod q -> x = y.
Proof.
  intros Hp Hq Hg Hx Hy Ep Eq.
  apply Z.cong_iff_ex in Ep as [a Ha].
  apply Z.cong_iff_ex in Eq as [b Hb].
  assert (Hdiv : (q | a)).
  { apply (Z.gauss q p a); [| assumption].
    exists b. rewrite <- Hb, Ha. ring. }
  destruct Hdiv as [k ->].
  assert (k = 0) by nia. subst k. lia.
Qed.

Lemma crt_spec (sk : PaillierPrivateKey.t) (m : Z) :
  valid_key sk ->
  let p := PaillierPrivateKey.p sk in
  let q := PaillierPrivateKey.q sk in
  PaillierPrivateKey.crt sk (m mod p) (m mod q) = Ok (m mod (p * q)).
Proof.
  intros (Hp & Hq & Hlt & _ & _ & _ & Hinv & _) p q.
  fold p q in Hp, Hq, Hlt, Hinv.
  pose proof (Z.prime_ge_2 p Hp) as Hp2.
  unfold PaillierPrivateKey.crt. fold p q.
  rewrite py_mod_nonzero by lia. simpl. f_equal.
  set (pinv := PaillierPrivateKey.p_inverse sk) in *.
  set (X := (m mod q - m mod p) * pinv).
  pose proof (Z.mod_pos_bound m p ltac:(lia)) as Bp.
  pose proof (Z.mod_pos_bound X q ltac:(lia)) as Bu.
  pose proof (Z.mod_pos_bound m (p * q) ltac:(nia)) as Bm.
  apply (crt_unique p q); try lia.
  - apply Z.coprime_prime_small; [assumption | lia].
  - nia.
  - rewrite Z.mod_add by lia. rewrite Z.mod_mod by lia.
    rewrite Z.mod_mod_divide by (exists q; ring). reflexivity.
  - rewrite (Z.mod_mod_divide m (p * q) q) by (exists p; ring).
    transitivity ((m mod q) mod q); [| apply Z.mod_mod; lia].
    apply Z.cong_iff_ex.
    assert (Hk : exists k, p * pinv - 1 = k * q).
    { apply Z.cong_iff_ex. rewrite Hinv. symmetry. apply Z.mod_1_l. lia. }
    destruct Hk as [k Hk].
    exists ((m mod q - m mod p) * k - X / q * p).
    rewrite (Z.mod_eq X q) by lia. unfold X.
    replace (m mod p + ((m mod q - m mod p) * pinv
                        - q * ((m mod q - m mod p) * pinv / q)) * p - m mod q)
      with ((m mod q - m mod p) * (p * pinv - 1)
            - q * ((m mod q - m mod p) * pinv / q) * p) by ring.
    rewrite Hk. ring.
Qed.

(** ** The key the constructor builds *)

Lemma prime_not_divide (p q : Z) :
  Z.prime p -> Z.prime q -> p <> q -> ~ (p | q).
Proof.
  intros Hp Hq Hne H. apply Hne.
  apply (Z.divide_prime_prime p q Hp Hq). exact H.
Qed.

Lemma valid_key_ordered (p q : Z) :
  Z.prime p -> Z.prime q -> p < q ->
  exists pinv hp hq,
    invert p q = Ok pinv /\
    PaillierPrivateKey.h_function (PaillierPublicKey.init (p * q)) p (p * p)
    = Ok hp /\
    PaillierPrivateKey.h_function (PaillierPublicKey.init (p * q)) q (q * q)
    = Ok hq /\
    (p * pinv) mod q = 1 /\
    ((p - 1) * q * hp) mod p = 1 /\
    ((q - 1) * p * hq) mod q = 1.
Proof.
  intros Hp Hq Hlt.
  pose proof (Z.prime_ge_2 p Hp) as Hp2.
  destruct (invert_coprime p q ltac:(lia)) as (pinv & Hrun & _ & Hinv).
  { rewrite Z.gcd_comm. apply Z.coprime_prime_small; [assumption | lia]. }
  destruct (h_function_spec p q Hp ltac:(lia))
    as (hp & Hhp & _ & Ehp).
  { apply prime_not_divide; [assumption | assumption | lia]. }
  destruct (h_function_spec q p Hq ltac:(lia))
    as (hq & Hhq & _ & Ehq).
  { apply prime_not_divide; [assumption | assumption | lia]. }
  exists pinv, hp, hq. rewrite (Z.mul_comm q p) in Hhq.
  repeat match goal with |- _ /\ _ => split end; try assumption.
  rewrite Hinv. apply Z.mod_1_l. lia.
Qed.

Lemma init_valid (p0 q0 : Z) :
  Z.prime p0 -> Z.prime q0 -> p0 <> q0 ->
  exists sk,
    PaillierPrivateKey.init (PaillierPublicKey.init (p0 * q0)) p0 q0 = Ok sk /\
    valid_key sk /\
    PaillierPrivateKey.public_key sk = PaillierPublicKey.init (p0 * q0).
Proof.
  intros Hp Hq Hne. unfold PaillierPrivateKey.init. simpl.
  rewrite Z.eqb_refl. simpl.
  destruct (Z.eqb_spec p0 q0) as [| _]; [contradiction |].
  destruct (Z.ltb_spec q0 p0) as [Hlt | Hge].
  - destruct (valid_key_ordered q0 p0 Hq Hp Hlt)
      as (pinv & hp & hq & Hpinv & Hhp & Hhq & E1 & E2 & E3).
    rewrite (Z.mul_comm q0 p0) in Hhp, Hhq.
    rewrite Hpinv. simpl. rewrite Hhp. simpl. rewrite Hhq. simpl.
    eexists. split; [reflexivity |]. split; [| reflexivity].
    unfold valid_key. simpl. rewrite (Z.mul_comm q0 p0).
    repeat match goal with |- _ /\ _ => split end;
      assumption || reflexivity.
  - destruct (valid_key_ordered p0 q0 Hp Hq ltac:(lia))
      as (pinv & hp & hq & Hpinv & Hhp & Hhq & E1 & E2 & E3).
    rewrite Hpinv. simpl. rewrite Hhp. simpl. rewrite Hhq. simpl.
    eexists. split; [reflexivity |]. split; [| reflexivity].
    unfold valid_key. simpl.
    repeat match goal with |- _ /\ _ => split end;
      assumption || reflexivity || lia.
Qed.

(** ** Decryption of a well-formed ciphertext *)

Lemma unit_not_divisible (p n r : Z) :
  1 < p -> (p | n) -> Z.gcd r n = 1 -> ~ (p | r).
Proof.
  intros Hp Hn Hg Hr.
  pose proof (Z.gcd_greatest r n p Hr Hn) as H. rewrite Hg in H.
  apply Z.divide_1_r_nonneg in H; lia.
Qed.

Lemma raw_decrypt_correct (sk : PaillierPrivateKey.t) (c m : Z) :
  valid_key sk ->
  let n := PaillierPrivateKey.p sk * PaillierPrivateKey.q sk in
  encrypts n c m ->
  PaillierPrivateKey.raw_decrypt sk c = Ok (m mod n).
Proof.
  intros Hvalid n (r & Hr & Hc).
  pose proof Hvalid as (Hp & Hq & Hlt & _ & Hpsq & Hqsq & _ & Hhp & Hhq).
  pose proof (Z.prime_ge_2 _ Hp) as Hp2.
  pose proof (Z.prime_ge_2 _ Hq) as Hq2.
  set (p := PaillierPrivateKey.p sk) in *.
  set (q := PaillierPrivateKey.q sk) in *.
  assert (Hpq : ~ (p | q)) by (apply prime_not_divide; assumption || lia).
  assert (Hqp : ~ (q | p)) by (apply prime_not_divide; assumption || lia).
  assert (Hrp : ~ (p | r)).
  { apply (unit_not_divisible p n); [lia | | exact Hr].
    exists q. apply Z.mul_comm. }
  assert (Hrq : ~ (q | r)).
  { apply (unit_not_divisible q n); [lia | | exact Hr].
    exists p. reflexivity. }
  assert (Hp0 : 0 < p) by lia.
  assert (Hq0 : 0 < q) by lia.
  unfold PaillierPrivateKey.raw_decrypt. rewrite Hpsq, Hqsq. fold p q.
  rewrite (half_decrypt p q Hp Hq0 c m r) by assumption.
  rewrite (half_decrypt q p Hq Hp0 c m r);
    [| rewrite (Z.mul_comm q p); exact Hc | assumption | assumption].
  apply crt_spec. exact Hvalid.
Qed.

(** ** The algebra of ciphertexts *)

Section Homomorphic.

Variable n : Z.
Hypothesis Hn : 2 <= n.

Let Hsq : 1 < n * n := nsquare_gt_1 n Hn.

Lemma encrypts_intro (m r : Z) :
  Z.gcd r n = 1 -> encrypts n (((n * m + 1) * r ^ n) mod (n * n)) m.
Proof.
  intros Hr. exists r. split; [exact Hr |].
  rewrite Z.mod_mod by lia. f_equal. ring.
Qed.

(** Only the residue of the plaintext modulo [n] matters. *)
Lemma encrypts_cong (c m m' : Z) :
  m mod n = m' mod n -> encrypts n c m -> encrypts n c m'.
Proof.
  intros Hm (r & Hr & Hc). exists r. split; [exact Hr |].
  rewrite Hc. apply Z.cong_iff_ex in Hm as [k Hk].
  apply Z.cong_iff_ex. exists (k * r ^ n).
  replace ((1 + n * m) * r ^ n - (1 + n * m') * r ^ n)
    with (n * (m - m') * r ^ n) by ring.
  rewrite Hk. ring.
Qed.

(** Multiplying ciphertexts adds plaintexts. *)
Lemma encrypts_product (c1 c2 m1 m2 : Z) :
  encrypts n c1 m1 -> encrypts n c2 m2 ->
  encrypts n ((c1 * c2) mod (n * n)) (m1 + m2).
Proof.
  intros (r1 & Hr1 & Hc1) (r2 & Hr2 & Hc2).
  exists (r1 * r2). split; [apply Z.coprime_mul_l; assumption |].
  rewrite Z.mod_mod by lia. rewrite Z.mul_mod by lia.
  rewrite Hc1, Hc2. rewrite <- Z.mul_mod by lia.
  rewrite Z.pow_mul_l. apply Z.cong_iff_ex.
  exists (m1 * m2 * (r1 ^ n * r2 ^ n)). ring.
Qed.

(** Raising a ciphertext to a power multiplies the plaintext. *)
Lemma encrypts_power (c m k : Z) :
  0 <= k -> encrypts n c m -> encrypts n (c ^ k mod (n * n)) (m * k).
Proof.
  intros Hk (r & Hr & Hc).
  exists (r ^ k). split; [apply Z.coprime_pow_l; assumption |].
  rewrite Z.mod_mod by lia. rewrite <- Z.mod_pow_l, Hc, Z.mod_pow_l.
  rewrite Z.pow_mul_l.
  rewrite <- !Z.pow_mul_r by lia. rewrite (Z.mul_comm k n).
  rewrite Z.mul_mod by lia.
  rewrite (pow_one_plus (n * n) (n * m) k Hk)
    by (exists (m * m); ring).
  rewrite <- Z.mul_mod by lia. f_equal. ring.
Qed.

(** Inverting a ciphertext negates the plaintext. *)
Lemma encrypts_invert (c m : Z) :
  encrypts n c m ->
  exists c', invert c (n * n) = Ok c' /\ encrypts n c' (- m).
Proof.
  intros (r & Hr & Hc).
  destruct (invert_coprime r (n * n) ltac:(lia))
    as (x & _ & _ & Hx).
  { apply Z.coprime_mul_r; assumption. }
  rewrite Z.mod_1_l in Hx by lia.
  assert (Hxn : Z.gcd x n = 1).
  { apply Z.bezout_1_gcd. exists r, (- (r * x / (n * n)) * n).
    pose proof (Z.div_mod (r * x) (n * n) ltac:(lia)). lia. }
  exists (((n * (- m) + 1) * x ^ n) mod (n * n)).
  split; [| apply encrypts_intro; exact Hxn].
  apply invert_is; [lia | apply Z.mod_pos_bound; lia |].
  rewrite Z.mul_mod_idemp_r by lia.
  rewrite <- Z.mul_mod_idemp_l by lia. rewrite Hc.
  rewrite Z.mul_mod_idemp_l by lia.
  replace ((1 + n * m) * r ^ n * ((n * - m + 1) * x ^ n))
    with ((r * x) ^ n + (- (m * m) * (r ^ n * x ^ n)) * (n * n))
    by (rewrite Z.pow_mul_l; ring).
  rewrite Z.mod_add by lia.
  rewrite <- Z.mod_pow_l, Hx, Z.pow_1_l by lia. reflexivity.
Qed.

(** An obfuscation factor is a ciphertext of 0. *)
Lemma encrypts_zero (r : Z) :
  Z.gcd r n = 1 -> encrypts n (r ^ n mod (n * n)) 0.
Proof.
  intros Hr. exists r. split; [exact Hr |].
  rewrite Z.mod_mod by lia. f_equal. ring.
Qed.

End Homomorphic.

(** ** Encoding integers *)

Lemma py_round_Qeq (x y : Q) : (x == y)%Q -> py_round x = py_round y.
Proof.
  intros E. unfold py_round.
  rewrite (Qfloor_comp x y E).
  assert (E' : (x - inject_Z (Qfloor y) == y - inject_Z (Qfloor y))%Q)
    by (rewrite E; reflexivity).
  rewrite (Qcompare_comp _ _ E' (1 # 2)%Q (1 # 2)%Q (Qeq_refl _)).
  reflexivity.
Qed.

Lemma py_round_integer (z : Z) : py_round (inject_Z z) = z.
Proof.
  unfold py_round. rewrite Qfloor_Z.
  assert (E : Qcompare (inject_Z z - inject_Z z)%Q (1 # 2)%Q = Lt).
  { apply Qlt_alt.
    setoid_replace (inject_Z z - inject_Z z)%Q with 0%Q by ring.
    reflexivity. }
  rewrite E. reflexivity.
Qed.

(** With an exponent that is not positive the scaled scalar is an integer,
    so rounding changes nothing. *)
Lemma py_round_scaled (scalar k : Z) :
  0 <= k ->
  py_round (inject_Z scalar * Qpower (inject_Z EncodedNumber.BASE) k)
  = scalar * EncodedNumber.BASE ^ k.
Proof.
  intros Hk. rewrite <- py_round_integer. apply py_round_Qeq.
  rewrite inject_Z_mult. rewrite Zpower_Qpower by assumption. reflexivity.
Qed.

Lemma encode_spec (pk : PaillierPublicKey.t) (scalar : Z)
      (max_exponent : option Z) :
  PaillierPublicKey.n pk <> 0 ->
  let exponent :=
    match max_exponent with
    | None => 0
    | Some m => Z.min m 0
    end in
  let int_rep := scalar * EncodedNumber.BASE ^ (- exponent) in
  Z.abs int_rep <= PaillierPublicKey.max_int pk ->
  EncodedNumber.encode pk scalar max_exponent
  = Ok {| EncodedNumber.public_key := pk;
          EncodedNumber.encoding := int_rep mod PaillierPublicKey.n pk;
          EncodedNumber.exponent := exponent |}.
Proof.
  intros Hn exponent int_rep Hrange. unfold EncodedNumber.encode.
  fold exponent.
  rewrite py_round_scaled by (subst exponent; destruct max_exponent; lia).
  fold int_rep.
  destruct (Z.gtb_spec (Z.abs int_rep) (PaillierPublicKey.max_int pk));
    [lia |].
  rewrite py_mod_nonzero by assumption. reflexivity.
Qed.

(** An integer beyond [max_int] is refused. *)
Lemma encode_out_of_range (pk : PaillierPublicKey.t) (scalar : Z) :
  PaillierPublicKey.max_int pk < Z.abs scalar ->
  EncodedNumber.encode pk scalar None = Raise IntegerOutOfRange.
Proof.
  intros Hrange. unfold EncodedNumber.encode.
  rewrite py_round_scaled by lia. simpl. rewrite Z.mul_1_r.
  destruct (Z.gtb_spec (Z.abs scalar) (PaillierPublicKey.max_int pk));
    [reflexivity | lia].
Qed.

(** Decoding the encoding of an integer in range gives the integer back. *)
Lemma decode_encoded_integer (n v : Z) :
  Z.abs v <= PaillierPublicKey.max_int (PaillierPublicKey.init n) ->
  EncodedNumber.decode
    {| EncodedNumber.public_key := PaillierPublicKey.init n;
       EncodedNumber.encoding := v mod n;
       EncodedNumber.exponent := 0 |}
  = Ok (PyInt v).
Proof.
  simpl. intros Hv.
  assert (Hmax : 0 <= n / 3 - 1) by lia.
  assert (Hn : 3 <= n).
  { destruct (Z.lt_ge_cases n 3) as [Hlt | ]; [| assumption].
    pose proof (Z.div_lt_upper_bound n 3 1 ltac:(lia) ltac:(lia)). lia. }
  assert (Hthird : 3 * (n / 3) <= n)
    by (apply Z.mul_div_le; lia).
  unfold EncodedNumber.decode, EncodedNumber.decode_value. simpl.
  destruct (Z.lt_ge_cases v 0) as [Hneg | Hpos].
  - assert (E : v mod n = v + n).
    { symmetry. apply (Z.mod_unique v n (-1)); lia. }
    rewrite E.
    destruct (Z.geb_spec (v + n) n); [lia |].
    destruct (Z.leb_spec (v + n) (n / 3 - 1)); [lia |].
    destruct (Z.geb_spec (v + n) (n - (n / 3 - 1))); [| lia].
    simpl. f_equal. f_equal. lia.
  - rewrite Z.mod_small by lia.
    destruct (Z.geb_spec v n); [lia |].
    destruct (Z.leb_spec v (n / 3 - 1)); [| lia].
    simpl. f_equal. f_equal. lia.
Qed.

(** ** The operations on well-formed ciphertexts *)

Section Operations.

Variable n : Z.
Hypothesis Hn : 2 <= n.

Let pk := PaillierPublicKey.init n.
Let Hsq : 1 < n * n := nsquare_gt_1 n Hn.

Lemma obfuscate_carries (self : EncryptedNumber.t) (m rnd : Z) :
  carries n self m -> Z.gcd rnd n = 1 ->
  exists e,
    EncryptedNumber.obfuscate self rnd = Ok e /\
    carries n e m /\
    EncryptedNumber.exponent e = EncryptedNumber.exponent self.
Proof.
  intros (Hpk & Hc) Hr.
  rewrite (obfuscate_spec n self rnd Hn Hpk).
  eexists. split; [reflexivity |]. split; [| reflexivity].
  split; [reflexivity |]. simpl.
  apply (encrypts_cong n _ (m + 0)); [f_equal; lia |].
  apply encrypts_product; [assumption | assumption |].
  apply encrypts_zero; assumption.
Qed.

Lemma encrypt_encoded_carries (enc : EncodedNumber.t) (rnd : Z) :
  Z.gcd rnd n = 1 ->
  exists e,
    encrypt_encoded pk enc None rnd = Ok e /\
    carries n e (EncodedNumber.encoding enc) /\
    EncryptedNumber.exponent e = EncodedNumber.exponent enc.
Proof.
  intros Hr. unfold encrypt_encoded. simpl.
  unfold pk. rewrite raw_encrypt_spec by lia. simpl.
  apply obfuscate_carries; [| assumption].
  split; [reflexivity |]. simpl.
  apply encrypts_intro; [assumption | apply Z.gcd_1_l].
Qed.

Lemma encrypt_int_carries (v rnd : Z) :
  Z.abs v <= PaillierPublicKey.max_int pk ->
  Z.gcd rnd n = 1 ->
  exists e,
    encrypt pk (PlainInt v) None rnd = Ok e /\
    carries n e v /\
    EncryptedNumber.exponent e = 0.
Proof.
  intros Hv Hr. unfold encrypt.
  rewrite (encode_spec pk v None) by (simpl; lia || (rewrite Z.mul_1_r; exact Hv)).
  simpl. rewrite Z.mul_1_r.
  destruct (encrypt_encoded_carries
              {| EncodedNumber.public_key := pk;
                 EncodedNumber.encoding := v mod n;
                 EncodedNumber.exponent := 0 |} rnd Hr)
    as (e & Hrun & (Hpk & Hc) & Hx).
  exists e. split; [exact Hrun |]. split; [| exact Hx].
  split; [exact Hpk |].
  apply (encrypts_cong n _ (v mod n)); [apply Z.mod_mod; lia | exact Hc].
Qed.

Lemma raw_mul_carries (self : EncryptedNumber.t) (m x : Z) :
  carries n self m -> 0 <= x < n ->
  exists c,
    EncryptedNumber._raw_mul self x = Ok c /\ encrypts n c (m * x).
Proof.
  intros (Hpk & Hc) Hx. unfold EncryptedNumber._raw_mul.
  rewrite Hpk. simpl.
  destruct (Z.ltb_spec x 0); [lia |].
  destruct (Z.geb_spec x n); [lia |]. simpl.
  destruct (Z.leb_spec (n - (n / 3 - 1)) x).
  - destruct (encrypts_invert n Hn _ _ Hc) as (c' & -> & Hc'). simpl.
    rewrite powmod_spec by lia.
    eexists. split; [reflexivity |].
    apply (encrypts_cong n _ (- m * (n - x))).
    + apply Z.cong_iff_ex. exists (- m). ring.
    + apply encrypts_power; [assumption | lia | assumption].
  - rewrite powmod_spec by lia.
    eexists. split; [reflexivity |].
    apply encrypts_power; [assumption | lia | assumption].
Qed.

Lemma mul_encoded_carries (self : EncryptedNumber.t)
      (enc : EncodedNumber.t) (m : Z) :
  carries n self m -> 0 <= EncodedNumber.encoding enc < n ->
  exists e,
    EncryptedNumber.__mul__ self (EncryptedNumber.Encoded enc) = Ok e /\
    carries n e (m * EncodedNumber.encoding enc) /\
    EncryptedNumber.exponent e
    = EncryptedNumber.exponent self + EncodedNumber.exponent enc.
Proof.
  intros Hself Henc. unfold EncryptedNumber.__mul__. simpl.
  destruct (raw_mul_carries self m _ Hself Henc) as (c & -> & Hc). simpl.
  eexists. split; [reflexivity |]. split; [| reflexivity].
  split; [apply Hself | exact Hc].
Qed.





End Operations.

Lemma decrypt_encoded_carries (sk : PaillierPrivateKey.t)
      (e : EncryptedNumber.t) (m : Z) :
  valid_key sk ->
  let n := PaillierPrivateKey.p sk * PaillierPrivateKey.q sk in
  carries n e m ->
  PaillierPrivateKey.decrypt_encoded sk e
  = Ok {| EncodedNumber.public_key := PaillierPublicKey.init n;
          EncodedNumber.encoding := m mod n;
          EncodedNumber.exponent := EncryptedNumber.exponent e |}.
Proof.
  intros Hvalid n (Hpk & Hc).
  pose proof Hvalid as (_ & _ & _ & Hskpk & _).
  unfold PaillierPrivateKey.decrypt_encoded, PaillierPublicKey.eqb.
  rewrite Hpk, Hskpk. fold n. simpl. rewrite Z.eqb_refl. simpl.
  rewrite (raw_decrypt_correct sk _ m Hvalid Hc). reflexivity.
Qed.

(** ** Round trip and homomorphism *)

Lemma prime_5 : Z.prime 5.
Proof.
  split; [lia |]. intros k Hk [d Hd].
  assert (k = 2 \/ k = 3 \/ k = 4) as [-> | [-> | ->]] by lia; lia.
Qed.

Lemma valid_key_modulus (p0 q0 : Z) (sk : PaillierPrivateKey.t) :
  valid_key sk ->
  PaillierPrivateKey.public_key sk = PaillierPublicKey.init (p0 * q0) ->
  PaillierPrivateKey.p sk * PaillierPrivateKey.q sk = p0 * q0 /\
  2 <= p0 * q0.
Proof.
  intros (Hp & Hq & _ & Hpk & _) Hpk'.
  rewrite Hpk in Hpk'. apply (f_equal PaillierPublicKey.n) in Hpk'.
  simpl in Hpk'. split; [exact Hpk' |].
  pose proof (Z.prime_ge_2 _ Hp). pose proof (Z.prime_ge_2 _ Hq). nia.
Qed.

(** Decrypting a ciphertext of an integer in range at exponent 0. *)
Lemma decrypt_carried_integer (p0 q0 : Z) (sk : PaillierPrivateKey.t)
      (e : EncryptedNumber.t) (v : Z) :
  valid_key sk ->
  PaillierPrivateKey.public_key sk = PaillierPublicKey.init (p0 * q0) ->
  carries (p0 * q0) e v ->
  EncryptedNumber.exponent e = 0 ->
  Z.abs v <= PaillierPublicKey.max_int (PaillierPublicKey.init (p0 * q0)) ->
  PaillierPrivateKey.decrypt sk e = Ok (PyInt v).
Proof.
  intros Hvalid Hpk Hcar Hx Hv.
  destruct (valid_key_modulus p0 q0 sk Hvalid Hpk) as (Hn & _).
  unfold PaillierPrivateKey.decrypt.
  rewrite (decrypt_encoded_carries sk e v Hvalid) by (rewrite Hn; exact Hcar).
  simpl. rewrite Hn, Hx. apply decode_encoded_integer. exact Hv.
Qed.

(** C1, as the source has it: for two distinct primes, an integer [v] with
    [|v| <= max_int] and an obfuscation factor [r] in [1, n) that is
    coprime to [n], decrypting the encryption of [v] returns [v]. *)
Theorem C1_round_trip (p0 q0 v rnd : Z) :
  Z.prime p0 -> Z.prime q0 -> p0 <> q0 ->
  let n := p0 * q0 in
  let pk := PaillierPublicKey.init n in
  Z.abs v <= PaillierPublicKey.max_int pk ->
  1 <= rnd < n -> Z.gcd rnd n = 1 ->
  exists sk e,
    PaillierPrivateKey.init pk p0 q0 = Ok sk /\
    encrypt pk (PlainInt v) None rnd = Ok e /\
    PaillierPrivateKey.decrypt sk e = Ok (PyInt v).
Proof.
  intros Hp Hq Hne n pk Hv _ Hr.
  destruct (init_valid p0 q0 Hp Hq Hne) as (sk & Hinit & Hvalid & Hpk).
  destruct (valid_key_modulus p0 q0 sk Hvalid Hpk) as (_ & Hn).
  destruct (encrypt_int_carries n Hn v rnd Hv Hr) as (e & Hrun & Hcar & Hx).
  exists sk, e. split; [exact Hinit |]. split; [exact Hrun |].
  apply (decrypt_carried_integer p0 q0); assumption.
Qed.

Lemma C1_round_trip_witness :
  exists sk e,
    PaillierPrivateKey.init (PaillierPublicKey.init (3 * 5)) 3 5 = Ok sk /\
    encrypt (PaillierPublicKey.init (3 * 5)) (PlainInt (-3)) None 2 = Ok e /\
    PaillierPrivateKey.decrypt sk e = Ok (PyInt (-3)).
Proof.
  apply (C1_round_trip 3 5 (-3) 2).
  - exact Z.prime_3.
  - exact prime_5.
  - lia.
  - simpl. lia.
  - lia.
  - reflexivity.
Defined.

(** C1 as it is worded fails: the factor [r = 3] lies in [1, 15) but shares
    a factor with [n = 15], and the encryption of 1 decrypts to -4. *)
Lemma C1_round_trip_counterexample :
  ~ (forall p0 q0 v rnd : Z,
       Z.prime p0 -> Z.prime q0 -> p0 <> q0 ->
       let n := p0 * q0 in
       let pk := PaillierPublicKey.init n in
       Z.abs v <= PaillierPublicKey.max_int pk ->
       1 <= rnd < n ->
       exists sk e,
         PaillierPrivateKey.init pk p0 q0 = Ok sk /\
         encrypt pk (PlainInt v) None rnd = Ok e /\
         PaillierPrivateKey.decrypt sk e = Ok (PyInt v)).
Proof.
  intros H.
  destruct (H 3 5 1 3 Z.prime_3 prime_5 ltac:(lia) ltac:(simpl; lia)
              ltac:(lia)) as (sk & e & Hsk & He & Hdec).
  vm_compute in Hsk. injection Hsk as <-.
  vm_compute in He. injection He as <-.
  vm_compute in Hdec. discriminate Hdec.
Qed.





(** ** Primality *)

Lemma td_loop_spec (fuel : nat) :
  forall d n,
    0 < d ->
    (td_loop fuel d n = true <->
     forall k, d <= k < d + Z.of_nat fuel -> k * k <= n -> n mod k <> 0).
Proof.
  induction fuel as [| fuel IH]; intros d n Hd.
  - simpl. split; [intros _ k Hk; lia | reflexivity].
  - cbn [td_loop]. destruct (Z.ltb_spec n (d * d)) as [Hsq | Hsq].
    + split; [intros _ k Hk Hkk; nia | reflexivity].
    + destruct (Z.eqb_spec (n mod d) 0) as [Hdiv | Hndiv].
      * split; [discriminate |]. intros H.
        exfalso. apply (H d); [lia | exact Hsq | exact Hdiv].
      * rewrite IH by lia. split.
        -- intros H k Hk Hkk.
           destruct (Z.eq_dec k d) as [-> | Hne]; [exact Hndiv |].
           apply H; [lia | exact Hkk].
        -- intros H k Hk Hkk. apply H; [lia | exact Hkk].
Qed.

Lemma trial_division_prime (n : Z) : trial_division n = true <-> Z.prime n.
Proof.
  unfold trial_division. rewrite andb_true_iff, Z.ltb_lt.
  rewrite td_loop_spec by lia. split.
  - intros (Hn & Hno).
    assert (Hsmall : forall k, 2 <= k -> k * k <= n -> n mod k <> 0).
    { intros k Hk Hkk. apply Hno; [| exact Hkk].
      assert (k <= Z.sqrt n) by (apply Z.sqrt_le_square; lia). lia. }
    split; [exact Hn |].
    intros m Hm [c Hc].
    assert (Hcpos : 1 < c < n) by nia.
    destruct (Z.le_ge_cases m c) as [Hle | Hge].
    + apply (Hsmall m); [lia | nia |].
      apply Z.mod_divide; [lia | exists c; exact Hc].
    + apply (Hsmall c); [lia | nia |].
      apply Z.mod_divide; [lia | exists m; lia].
  - intros (Hn & Hno). split; [exact Hn |].
    intros k Hk Hkk Hmod. apply (Hno k); [nia |].
    apply Z.mod_divide; [lia | exact Hmod].
Qed.

Lemma in_zrange (len : nat) :
  forall lo k, In k (zrange lo len) <-> lo <= k < lo + Z.of_nat len.
Proof.
  induction len as [| len IH]; intros lo k; simpl.
  - split; [contradiction | lia].
  - rewrite IH. lia.
Qed.

Lemma py_in_In (k : Z) (ps : list Z) : py_in k ps = true <-> In k ps.
Proof.
  induction ps as [| p ps IH]; simpl; [split; [discriminate | contradiction] |].
  destruct (Z.eqb_spec k p) as [-> | Hne].
  - split; [left; reflexivity | reflexivity].
  - rewrite IH. split; [right; assumption |].
    intros [E | H]; [congruence | exact H].
Qed.

(** The table holds exactly the primes up to its last entry, 17863 ... *)
Lemma table_is_filter :
  first_primes = filter trial_division (zrange 0 (Z.to_nat 17864)).
Proof. vm_compute. reflexivity. Qed.

Lemma last_first_primes : last first_primes 0 = 17863.
Proof. vm_compute. reflexivity. Qed.

(** ... and divides out every composite between 17863 and 20000. *)
Lemma table_sieves :
  forallb (fun k => if trial_division k then true
                   else has_small_divisor k first_primes)
          (zrange 17864 (Z.to_nat 2136)) = true.
Proof. vm_compute. reflexivity. Qed.

(** Up to its last entry the table decides primality. *)
Lemma table_lookup (n : Z) :
  n <= 17863 -> py_in n first_primes = trial_division n.
Proof.
  intros Hn. apply eq_true_iff_eq.
  rewrite py_in_In, table_is_filter, filter_In, in_zrange.
  split; [intros (_ & H); exact H |].
  intros H. split; [| exact H].
  unfold trial_division in H. apply andb_true_iff in H as (H1 & _).
  apply Z.ltb_lt in H1. lia.
Qed.

Lemma table_entries (p : Z) : In p first_primes -> 1 < p <= 17863.
Proof.
  rewrite table_is_filter, filter_In, in_zrange. intros (Hp & Htd).
  unfold trial_division in Htd. apply andb_true_iff in Htd as (H1 & _).
  apply Z.ltb_lt in H1. lia.
Qed.

(** No smaller number above 1 divides a prime. *)
Lemma has_small_divisor_prime (n : Z) (ps : list Z) :
  Z.prime n -> (forall p, In p ps -> 1 < p < n) ->
  has_small_divisor n ps = false.
Proof.
  intros (Hn & Hno). induction ps as [| p ps IH]; intros Hps; simpl.
  - reflexivity.
  - destruct (Z.eqb_spec (n mod p) 0) as [Hdiv | _].
    + exfalso. apply (Hno p); [apply Hps; left; reflexivity |].
      apply Z.mod_divide; [| exact Hdiv].
      specialize (Hps p (or_introl eq_refl)). lia.
    + apply IH. intros p' Hp'. apply Hps. right. exact Hp'.
Qed.

(** Between the last entry and 20000 the table finds a divisor exactly for
    the composites. *)
Lemma table_sieve (n : Z) :
  17863 < n < 20000 ->
  has_small_divisor n first_primes = negb (trial_division n).
Proof.
  intros Hn. destruct (trial_division n) eqn:Htd; cbn [negb].
  - apply has_small_divisor_prime; [apply trial_division_prime; exact Htd |].
    intros p Hp. apply table_entries in Hp. lia.
  - pose proof table_sieves as H. rewrite forallb_forall in H.
    specialize (H n). rewrite Htd in H. apply H.
    apply in_zrange. lia.
Qed.

(** *** Miller-Rabin on a prime *)

Lemma mr_split_spec (fuel : nat) :
  forall d r,
    0 < d -> Z.log2 d <= Z.of_nat fuel ->
    exists d' r',
      mr_split fuel d r = Some (d', r') /\
      d' * 2 ^ (r' - r) = d /\ d' mod 2 = 1 /\ r <= r' /\ 0 < d'.
Proof.
  induction fuel as [| fuel IH]; intros d r Hd Hlog.
  - assert (Hd1 : d = 1).
    { destruct (Z.eq_dec d 1) as [| Hne]; [assumption |].
      pose proof (Z.log2_le_mono 2 d ltac:(lia)) as H.
      change (Z.log2 2) with 1 in H. lia. }
    subst d. exists 1, r. cbn. rewrite Z.sub_diag.
    repeat split; reflexivity || lia.
  - cbn [mr_split]. destruct (Z.eqb_spec (d mod 2) 0) as [Heven | Hodd];
      cbn [negb].
    + assert (Hd2 : d = 2 * (d / 2))
        by (pose proof (Z.div_mod d 2 ltac:(lia)); lia).
      assert (Hhalf : 0 < d / 2) by lia.
      destruct (IH (d / 2) (r + 1) Hhalf) as (d' & r' & Hrun & Hprod & Hd' & Hr & Hpos).
      { pose proof (Z.log2_double (d / 2) Hhalf) as H.
        rewrite <- Hd2 in H. lia. }
      exists d', r'. split; [exact Hrun |].
      split; [| split; [exact Hd' | split; [lia | exact Hpos]]].
      replace (r' - r) with (Z.succ (r' - (r + 1))) by lia.
      rewrite Z.pow_succ_r by lia. lia.
    + exists d, r. rewrite Z.sub_diag, Z.pow_0_r.
      pose proof (Z.mod_pos_bound d 2 ltac:(lia)).
      repeat split; reflexivity || lia.
Qed.

Section MillerRabin.

Variable n : Z.
Hypothesis Hprime : Z.prime n.
Hypothesis Hn : 3 < n.

(** The only square roots of 1 modulo a prime are 1 and -1. *)
Lemma sqrt_of_unity (x : Z) :
  0 <= x < n -> (x * x) mod n = 1 -> x = 1 \/ x = n - 1.
Proof.
  intros Hx Hsq.
  assert (Hdiv : (n | (x - 1) * (x + 1))).
  { apply Z.mod_divide; [lia |].
    replace ((x - 1) * (x + 1)) with (x * x - 1) by ring.
    apply Z.cong_iff_0. rewrite Hsq. symmetry. apply Z.mod_1_l. lia. }
  apply (Z.divide_prime_mul _ _ _ Hprime) in Hdiv as [[c Hc] | [c Hc]].
  - left. assert (c = 0) by nia. lia.
  - right. assert (c = 1) by nia. lia.
Qed.

Lemma mr_square_loop_prime (iters : nat) :
  forall x,
    0 <= x < n -> x <> 1 -> x <> n - 1 ->
    x ^ (2 ^ (Z.of_nat iters + 1)) mod n = 1 ->
    mr_square_loop iters x n = Ok true.
Proof.
  induction iters as [| iters IH]; intros x Hx H1 Hm1 Hpow.
  - exfalso. change (2 ^ (Z.of_nat 0 + 1)) with 2 in Hpow.
    rewrite Z.pow_2_r in Hpow.
    destruct (sqrt_of_unity x Hx Hpow); contradiction.
  - cbn [mr_square_loop]. rewrite py_mod_nonzero by lia. cbn [bind].
    destruct (Z.eqb_spec ((x * x) mod n) (n - 1)) as [| Hne];
      [reflexivity |].
    apply IH.
    + apply Z.mod_pos_bound. lia.
    + intros Hone. destruct (sqrt_of_unity x Hx Hone); contradiction.
    + exact Hne.
    + rewrite Z.mod_pow_l. rewrite <- Z.pow_2_r, <- Z.pow_mul_r by lia.
      replace (2 * 2 ^ (Z.of_nat iters + 1))
        with (2 ^ (Z.of_nat (S iters) + 1)); [exact Hpow |].
      replace (Z.of_nat (S iters) + 1) with (Z.succ (Z.of_nat iters + 1))
        by lia.
      rewrite Z.pow_succ_r by lia. reflexivity.
Qed.

Variables d r : Z.
Hypothesis Hd : 0 < d.
Hypothesis Hr : 1 <= r.
Hypothesis Hsplit : n - 1 = d * 2 ^ r.

Variable rand : nat -> Z.
Hypothesis Hrand : forall i, 2 <= rand i <= n - 2.

(** Every round passes, whatever the witness. *)
Lemma mr_rounds_prime (k : nat) :
  forall i, mr_rounds k i rand d r n = Ok true.
Proof.
  induction k as [| k IH]; intros i; [reflexivity |].
  cbn [mr_rounds]. unfold randint.
  destruct (Z.ltb_spec (n - 2) 2); [lia |]. cbn [bind].
  rewrite py_pow3_nonneg by lia. cbn [bind].
  set (x := rand i ^ d mod n).
  destruct (Z.eqb_spec x 1) as [| H1]; [apply IH |].
  destruct (Z.eqb_spec x (n - 1)) as [| Hm1]; [apply IH |].
  cbn [orb].
  rewrite (mr_square_loop_prime (Z.to_nat (r - 1)) x);
    [cbn [bind]; apply IH | apply Z.mod_pos_bound; lia | exact H1
    | exact Hm1 |].
  replace (Z.of_nat (Z.to_nat (r - 1)) + 1) with r by lia.
  unfold x. rewrite Z.mod_pow_l, <- Z.pow_mul_r by lia.
  rewrite <- Hsplit. apply Z.fermat_nz; [exact Hprime |].
  specialize (Hrand i). rewrite Z.mod_small by lia. lia.
Qed.

End MillerRabin.

Lemma miller_rabin_prime (n k : Z) (rand : nat -> Z) :
  Z.prime n -> 3 < n -> (forall i, 2 <= rand i <= n - 2) ->
  miller_rabin n k rand = Ok true.
Proof.
  intros Hprime Hn Hrand. unfold miller_rabin.
  destruct (Z.ltb_spec 3 n); [| lia]. cbn [negb].
  destruct (mr_split_spec (Z.to_nat (Z.log2 (n - 1))) (n - 1) 0)
    as (d & r & -> & Hprod & Hodd & Hr & Hd).
  { lia. }
  { pose proof (Z.log2_nonneg (n - 1)). lia. }
  rewrite Z.sub_0_r in Hprod.
  destruct (Z.eqb_spec (n - 1) (d * 2 ^ r)); [| lia]. cbn [negb].
  destruct (Z.eqb_spec (d mod 2) 1); [| lia]. cbn [negb].
  assert (Hr1 : 1 <= r).
  { destruct (Z.eq_dec r 0) as [-> | ]; [| lia]. exfalso.
    rewrite Z.pow_0_r, Z.mul_1_r in Hprod.
    destruct Hprime as (_ & Hno). apply (Hno 2); [lia |].
    apply Z.mod_divide; [lia |].
    replace n with (d + 1) by lia.
    rewrite <- Z.add_mod_idemp_l by lia. rewrite Hodd. reflexivity. }
  apply mr_rounds_prime; assumption || lia.
Qed.

(** C8: below 20000 [is_prime] returns [True] exactly on the primes, that
    is, it agrees with trial division, whatever witnesses Miller-Rabin
    draws; up to the table's last entry it looks the number up in the
    table, above it it divides by the table's primes and then runs
    Miller-Rabin. *)
Theorem C8_is_prime_below_20000 (n mr_rounds : Z) (rand : nat -> Z) :
  n < 20000 ->
  (last first_primes 0 < n -> forall i, 2 <= rand i <= n - 2) ->
  is_prime n mr_rounds rand = Ok (trial_division n) /\
  (trial_division n = true <-> Z.prime n) /\
  (n <= last first_primes 0 ->
   is_prime n mr_rounds rand = Ok (py_in n first_primes)) /\
  (last first_primes 0 < n ->
   is_prime n mr_rounds rand
   = if has_small_divisor n first_primes then Ok false
     else miller_rabin n mr_rounds rand).
Proof.
  intros Hn Hrand. unfold is_prime.
  rewrite last_first_primes in *.
  split; [| split; [apply trial_division_prime | split]].
  - destruct (Z.leb_spec n 17863) as [Hle | Hgt].
    + rewrite table_lookup by assumption. reflexivity.
    + rewrite table_sieve by lia.
      destruct (trial_division n) eqn:Htd; cbn [negb]; [| reflexivity].
      apply miller_rabin_prime;
        [apply trial_division_prime; exact Htd | lia | apply Hrand; exact Hgt].
  - intros Hle. destruct (Z.leb_spec n 17863); [reflexivity | lia].
  - intros Hgt. destruct (Z.leb_spec n 17863); [lia | reflexivity].
Qed.

Lemma C8_is_prime_below_20000_witness :
  is_prime 17881 25 (fun _ => 2) = Ok (trial_division 17881) /\
  is_prime 561 25 (fun _ => 2) = Ok (trial_division 561).
Proof.
  split.
  - destruct (C8_is_prime_below_20000 17881 25 (fun _ => 2)) as (H & _);
      [lia | intros _ i; lia | exact H].
  - destruct (C8_is_prime_below_20000 561 25 (fun _ => 2)) as (H & _);
      [lia | rewrite last_first_primes; intros H; lia | exact H].
Defined.

(** ** Decoding at a negative exponent: the float quotient *)

Lemma pow2_pos (k : Z) : 0 <= k -> 0 < 2 ^ k.
Proof. intros Hk. apply Z.pow_pos_nonneg; lia. Qed.

Section PowerOfTwoOrder.

Variables x y : Z.
Hypothesis Hx : 0 < x.
Hypothesis Hy : 0 < y.

Lemma pow2_le_pred (e : Z) :
  pow2_le y (e + 1) x = true -> pow2_le y e x = true.
Proof.
  unfold pow2_le.
  destruct (Z.leb_spec 0 (e + 1)) as [H1 | H1];
    destruct (Z.leb_spec 0 e) as [H0 | H0]; try lia;
    rewrite !Z.leb_le.
  - rewrite Z.pow_add_r by lia. pose proof (pow2_pos e H0).
    change (2 ^ 1) with 2. nia.
  - assert (e = -1) by lia. subst e. change (2 ^ (-1 + 1)) with 1.
    change (2 ^ (- -1)) with 2. nia.
  - replace (- e) with (- (e + 1) + 1) by lia.
    rewrite Z.pow_add_r by lia.
    pose proof (pow2_pos (- (e + 1)) ltac:(lia)).
    change (2 ^ 1) with 2. nia.
Qed.

Lemma pow2_le_mono (e e' : Z) :
  e <= e' -> pow2_le y e' x = true -> pow2_le y e x = true.
Proof.
  intros Hle. replace e' with (e + (e' - e)) by lia.
  assert (Hk : 0 <= e' - e) by lia. revert Hk.
  generalize (e' - e). apply (natlike_ind
    (fun k => pow2_le y (e + k) x = true -> pow2_le y e x = true)).
  - rewrite Z.add_0_r. trivial.
  - intros k Hk IH H. apply IH. apply pow2_le_pred.
    replace (e + k + 1) with (e + Z.succ k) by lia. exact H.
Qed.

Lemma pow2_le_log2_lower :
  pow2_le y (Z.log2 x - Z.log2 y - 1) x = true.
Proof.
  pose proof (Z.log2_spec x Hx) as (Lx & _).
  pose proof (Z.log2_spec y Hy) as (_ & Uy).
  pose proof (Z.log2_nonneg x) as Nx. pose proof (Z.log2_nonneg y) as Ny.
  unfold pow2_le.
  destruct (Z.leb_spec 0 (Z.log2 x - Z.log2 y - 1)) as [H | H];
    rewrite Z.leb_le.
  - assert (E : 2 ^ Z.log2 x
                = 2 ^ Z.succ (Z.log2 y) * 2 ^ (Z.log2 x - Z.log2 y - 1)).
    { rewrite <- Z.pow_add_r by lia. f_equal. lia. }
    pose proof (pow2_pos _ H). nia.
  - assert (E : 2 ^ Z.succ (Z.log2 y)
                = 2 ^ Z.log2 x * 2 ^ (- (Z.log2 x - Z.log2 y - 1))).
    { rewrite <- Z.pow_add_r by lia. f_equal. lia. }
    pose proof (pow2_pos (- (Z.log2 x - Z.log2 y - 1)) ltac:(lia)). nia.
Qed.

Lemma pow2_le_log2_upper :
  pow2_le y (Z.log2 x - Z.log2 y + 1) x = false.
Proof.
  pose proof (Z.log2_spec x Hx) as (_ & Ux).
  pose proof (Z.log2_spec y Hy) as (Ly & _).
  pose proof (Z.log2_nonneg x) as Nx. pose proof (Z.log2_nonneg y) as Ny.
  unfold pow2_le.
  destruct (Z.leb_spec 0 (Z.log2 x - Z.log2 y + 1)) as [H | H];
    apply Z.leb_gt.
  - assert (E : 2 ^ Z.succ (Z.log2 x)
                = 2 ^ Z.log2 y * 2 ^ (Z.log2 x - Z.log2 y + 1)).
    { rewrite <- Z.pow_add_r by lia. f_equal. lia. }
    pose proof (pow2_pos _ H). nia.
  - assert (E : 2 ^ Z.log2 y
                = 2 ^ Z.succ (Z.log2 x) * 2 ^ (- (Z.log2 x - Z.log2 y + 1))).
    { rewrite <- Z.pow_add_r by lia. f_equal. lia. }
    pose proof (pow2_pos (- (Z.log2 x - Z.log2 y + 1)) ltac:(lia)). nia.
Qed.

(** [quotient_exponent] is the binary exponent of [x / y]. *)
Lemma quotient_exponent_spec :
  let e := quotient_exponent x y in
  pow2_le y e x = true /\ pow2_le y (e + 1) x = false.
Proof.
  unfold quotient_exponent.
  destruct (pow2_le y (Z.log2 x - Z.log2 y) x) eqn:H0; cbv zeta.
  - split; [exact H0 | apply pow2_le_log2_upper].
  - split; [apply pow2_le_log2_lower |].
    replace (Z.log2 x - Z.log2 y - 1 + 1) with (Z.log2 x - Z.log2 y) by lia.
    exact H0.
Qed.

Lemma pow2_le_above (e : Z) :
  quotient_exponent x y < e -> pow2_le y e x = false.
Proof.
  intros He. destruct (pow2_le y e x) eqn:H; [| reflexivity].
  destruct quotient_exponent_spec as (_ & Hup).
  rewrite (pow2_le_mono (quotient_exponent x y + 1) e) in Hup;
    [discriminate | lia | exact H].
Qed.

Lemma pow2_le_below (e : Z) :
  e <= quotient_exponent x y -> pow2_le y e x = true.
Proof.
  intros He. destruct quotient_exponent_spec as (Hlow & _).
  apply (pow2_le_mono e (quotient_exponent x y)); assumption.
Qed.

(** Scaling by the exponent [ex] of the last place. *)
Variable ex : Z.

Let num := if 0 <=? ex then x else x * 2 ^ (- ex).
Let den := if 0 <=? ex then y * 2 ^ ex else y.

Lemma den_pos : 0 < den.
Proof.
  unfold den. destruct (Z.leb_spec 0 ex); [| exact Hy].
  pose proof (pow2_pos ex ltac:(lia)). nia.
Qed.

(** [2^(ex + j) <= x / y] reads [2^j <= num / den]. *)
Lemma pow2_le_scaled (j : Z) :
  0 <= j -> (pow2_le y (ex + j) x = true <-> den * 2 ^ j <= num).
Proof.
  intros Hj. unfold pow2_le, num, den.
  pose proof (pow2_pos j Hj) as Pj.
  destruct (Z.leb_spec 0 ex) as [H0 | H0].
  - destruct (Z.leb_spec 0 (ex + j)); [| lia].
    rewrite Z.leb_le, Z.pow_add_r by lia. split; intros; nia.
  - pose proof (pow2_pos (- ex) ltac:(lia)) as Pe.
    destruct (Z.leb_spec 0 (ex + j)) as [H1 | H1]; rewrite Z.leb_le.
    + assert (E : 2 ^ j = 2 ^ (ex + j) * 2 ^ (- ex)).
      { rewrite <- Z.pow_add_r by lia. f_equal. lia. }
      pose proof (pow2_pos (ex + j) H1). rewrite E. split; intros; nia.
    + assert (E : 2 ^ (- ex) = 2 ^ (- (ex + j)) * 2 ^ j).
      { rewrite <- Z.pow_add_r by lia. f_equal. lia. }
      pose proof (pow2_pos (- (ex + j)) ltac:(lia)). rewrite E.
      split; intros; nia.
Qed.

End PowerOfTwoOrder.

Lemma round_half_even_spec (num den : Z) :
  0 < den ->
  let q := round_half_even num den in
  num / den <= q <= num / den + 1 /\
  Z.abs (2 * (q * den - num)) <= den /\
  (q = num / den + 1 -> den <= 2 * (num mod den)) /\
  (den < 2 * (num mod den) -> q = num / den + 1) /\
  (den = 2 * (num mod den) -> Z.even (num / den) = false ->
   q = num / den + 1).
Proof.
  intros Hden. unfold round_half_even.
  pose proof (Z.div_mod num den ltac:(lia)) as Hdm.
  pose proof (Z.mod_pos_bound num den Hden) as Hrm.
  destruct (Z.compare_spec (2 * (num mod den)) den) as [E | L | G];
    cbv zeta.
  - destruct (Z.even (num / den)) eqn:Hev.
    + repeat split; intros; try lia; try nia; congruence.
    + repeat split; intros; try lia; nia.
  - repeat split; intros; try lia; nia.
  - repeat split; intros; try lia; nia.
Qed.

Lemma round_half_even_exact (num den : Z) :
  0 < den -> num mod den = 0 -> round_half_even num den = num / den.
Proof.
  intros Hden Hrm. unfold round_half_even. rewrite Hrm.
  destruct (Z.compare_spec (2 * 0) den); lia.
Qed.

Section TrueDivide.

Variables x y : Z.
Hypothesis Hx : 0 < x.
Hypothesis Hy : 0 < y.

Let ex := ulp_exponent x y.
Let num := if 0 <=? ex then x else x * 2 ^ (- ex).
Let den := if 0 <=? ex then y * 2 ^ ex else y.
Let q := round_half_even num den.

(** The least quotient that rounds to 2^1024: 2^1024 - 2^970. *)
Let T := (2 ^ 54 - 1) * 2 ^ 970.

Lemma ulp_exponent_ge : - 1074 <= ex.
Proof. unfold ex, ulp_exponent. lia. Qed.

(** The mantissa has at most 53 bits before rounding ... *)
Lemma scaled_lt_2_53 : num < den * 2 ^ 53.
Proof.
  assert (H : pow2_le y (ex + 53) x = false).
  { apply pow2_le_above; [assumption | assumption |].
    unfold ex, ulp_exponent. lia. }
  destruct (Z.le_gt_cases (den * 2 ^ 53) num) as [Hle | Hgt];
    [| exact Hgt].
  apply (pow2_le_scaled x y ex 53 ltac:(lia)) in Hle.
  congruence.
Qed.

(** ... and exactly 53 unless the value is subnormal. *)
Lemma scaled_ge_2_52 : - 1074 < ex -> den * 2 ^ 52 <= num.
Proof.
  intros Hnormal.
  apply (pow2_le_scaled x y ex 52 ltac:(lia)).
  apply pow2_le_below; [assumption | assumption |].
  unfold ex, ulp_exponent in *. lia.
Qed.

Lemma rounded_bounds :
  0 <= q <= 2 ^ 53 /\ (ex = - 1074 \/ 2 ^ 52 <= q).
Proof.
  pose proof (den_pos x y Hx Hy ex) as Hden. fold den in Hden.
  destruct (round_half_even_spec num den Hden) as (Hq & _).
  fold q in Hq. pose proof scaled_lt_2_53 as Hup.
  assert (Hnum : 0 <= num).
  { unfold num. destruct (0 <=? ex); [lia |].
    pose proof (pow2_pos (- ex)). destruct (Z.le_gt_cases 0 (- ex)); [nia |].
    rewrite Z.pow_neg_r by lia. lia. }
  assert (0 <= num / den) by (apply Z.div_pos; lia).
  assert (num / den < 2 ^ 53)
    by (apply Z.div_lt_upper_bound; [lia | nia]).
  split; [lia |].
  pose proof ulp_exponent_ge.
  destruct (Z.eq_dec ex (- 1074)) as [| Hne]; [left; assumption | right].
  assert (2 ^ 52 <= num / den)
    by (apply Z.div_le_lower_bound; [lia |];
        pose proof (scaled_ge_2_52 ltac:(lia)); nia).
  lia.
Qed.

(** The division overflows exactly from [T] on. *)
Lemma overflow_iff :
  (971 <? ex) || ((ex =? 971) && (2 ^ 53 <=? q)) = true <-> T * y <= x.
Proof.
  pose proof (den_pos x y Hx Hy ex) as Hden. fold den in Hden.
  pose proof scaled_lt_2_53 as Hup.
  destruct (round_half_even_spec num den Hden)
    as (Hq & _ & Hdown & Hup1 & Hup2).
  fold q in Hq, Hdown, Hup1, Hup2.
  pose proof (Z.div_mod num den ltac:(lia)) as Hdm.
  pose proof (Z.mod_pos_bound num den Hden) as Hrm.
  rewrite orb_true_iff, andb_true_iff, Z.ltb_lt, Z.eqb_eq, Z.leb_le.
  unfold T.
  destruct (Z.lt_trichotomy ex 971) as [Hlt | [Heq | Hgt]].
  - (* below the largest exponent *)
    split; [lia |]. intros HT. exfalso.
    assert (H : pow2_le y 1023 x = false).
    { apply pow2_le_above; [assumption | assumption |].
      unfold ex, ulp_exponent in Hlt. lia. }
    unfold pow2_le in H. cbn in H. apply Z.leb_gt in H. nia.
  - (* at the largest exponent the rounding decides *)
    assert (Enum : num = x) by (unfold num; rewrite Heq; reflexivity).
    assert (Eden : den = y * 2 ^ 971)
      by (unfold den; rewrite Heq; reflexivity).
    assert (Hfl : num / den < 2 ^ 53)
      by (apply Z.div_lt_upper_bound; [lia | nia]).
    split.
    + intros [Hbad | (_ & Hq53)]; [lia |].
      assert (Eq1 : q = num / den + 1) by lia.
      specialize (Hdown Eq1). nia.
    + intros HT. right. split; [exact Heq |].
      assert (Hfl' : 2 ^ 53 - 1 <= num / den)
        by (apply Z.div_le_lower_bound; [lia | nia]).
      assert (Efl : num / den = 2 ^ 53 - 1) by lia.
      assert (Hhalf : den <= 2 * (num mod den)) by nia.
      destruct (Z.eq_dec den (2 * (num mod den))) as [E | Hne].
      * rewrite Hup2; [lia | exact E | rewrite Efl; reflexivity].
      * rewrite Hup1; lia.
  - (* above it *)
    split; [| intros _; left; exact Hgt]. intros _.
    assert (H : pow2_le y 1024 x = true).
    { apply pow2_le_below; [assumption | assumption |].
      unfold ex, ulp_exponent in Hgt. lia. }
    unfold pow2_le in H. cbn in H. apply Z.leb_le in H. nia.
Qed.

End TrueDivide.

(** *** The error of the float quotient, as a rational *)

Lemma Qpower_2_nonneg (e : Z) : 0 <= e -> (Qpower 2 e == inject_Z (2 ^ e))%Q.
Proof. intros He. rewrite Zpower_Qpower by assumption. reflexivity. Qed.

Lemma Qpower_2_neg (e : Z) :
  e < 0 -> (Qpower 2 e == / inject_Z (2 ^ (- e)))%Q.
Proof.
  intros He. replace e with (- - e) at 1 by lia.
  rewrite Qpower_opp. rewrite Zpower_Qpower by lia. reflexivity.
Qed.

Lemma Qpower_2_pos (e : Z) : (0 < Qpower 2 e)%Q.
Proof. apply Qpower_0_lt. reflexivity. Qed.

Lemma inject_Z_nonzero (z : Z) : z <> 0 -> ~ (inject_Z z == 0)%Q.
Proof.
  intros Hz H. unfold Qeq in H. simpl in H. lia.
Qed.

(** A quotient of integers that is at most a half. *)
Lemma Qabs_half (k d : Z) :
  0 < d -> Z.abs (2 * k) <= d ->
  (Qabs (inject_Z k / inject_Z d) <= 1 # 2)%Q.
Proof.
  intros Hd Hk. destruct d as [| p | p]; try lia.
  rewrite <- Qmake_Qdiv. unfold Qabs, Qle. simpl. lia.
Qed.

(** The algebra of the error: a signed mantissa [A*B*q] at the place [P]
    against the signed quotient [A*X / (B*Y)], when [N / D] is [X / Y]
    scaled to the last place. *)
Lemma signed_error (A B q P X Y N D : Q) :
  (B * B == 1 -> ~ Y == 0 -> ~ D == 0 -> N / D * P == X / Y ->
   A * B * q * P - A * X / (B * Y) == A * B * ((q * D - N) / D) * P)%Q.
Proof.
  intros HB HY HD Hscale.
  assert (HBnz : ~ (B == 0)%Q).
  { intros HB0. rewrite HB0 in HB. discriminate HB. }
  setoid_replace ((q * D - N) / D)%Q with (q - N / D)%Q
    by (field; assumption).
  setoid_replace (A * B * (q - N / D) * P)%Q
    with (A * B * q * P - A * B * (N / D * P))%Q by ring.
  rewrite Hscale.
  setoid_replace (A * X / (B * Y))%Q with (A * (B * B) * X / (B * Y))%Q
    by (rewrite HB; field; split; assumption).
  field. split; assumption.
Qed.

Section QuotientError.

Variables a b : Z.
Hypothesis Ha : a <> 0.
Hypothesis Hb : b <> 0.

Let x := Z.abs a.
Let y := Z.abs b.
Let ex := ulp_exponent x y.
Let num := if 0 <=? ex then x else x * 2 ^ (- ex).
Let den := if 0 <=? ex then y * 2 ^ ex else y.
Let q := round_half_even num den.
Let f := rounded_quotient a b.

Lemma scaled_quotient :
  (inject_Z num / inject_Z den * Qpower 2 ex
   == inject_Z x / inject_Z y)%Q.
Proof.
  assert (Hy : 0 < y) by (unfold y; lia).
  assert (Hynz : ~ (inject_Z y == 0)%Q) by (apply inject_Z_nonzero; lia).
  unfold num, den. destruct (Z.leb_spec 0 ex) as [H0 | H0].
  - rewrite (Qpower_2_nonneg ex H0). pose proof (pow2_pos ex H0) as Hp.
    rewrite inject_Z_mult. field.
    split; assumption || (apply inject_Z_nonzero; lia).
  - rewrite (Qpower_2_neg ex H0).
    pose proof (pow2_pos (- ex) ltac:(lia)) as Hp.
    rewrite inject_Z_mult. field.
    split; assumption || (apply inject_Z_nonzero; lia).
Qed.

(** The float differs from the quotient by [q - num / den] units in the
    last place. *)
Lemma F2Q_error :
  (F2Q f - inject_Z a / inject_Z b
   == inject_Z (Z.sgn a) * inject_Z (Z.sgn b)
      * ((inject_Z q * inject_Z den - inject_Z num) / inject_Z den)
      * Qpower 2 ex)%Q.
Proof.
  assert (Hx : 0 < x) by (unfold x; lia).
  assert (Hy : 0 < y) by (unfold y; lia).
  pose proof (den_pos x y Hx Hy ex) as Hden. fold den in Hden.
  unfold F2Q, f, rounded_quotient. cbn [fmant fexp]. fold x y ex num den q.
  assert (Ea : a = Z.sgn a * x) by (unfold x; lia).
  assert (Eb : b = Z.sgn b * y) by (unfold y; lia).
  replace (inject_Z a / inject_Z b)%Q
    with (inject_Z (Z.sgn a * x) / inject_Z (Z.sgn b * y))%Q
    by (rewrite <- Ea, <- Eb; reflexivity).
  rewrite !inject_Z_mult.
  apply signed_error.
  - rewrite <- inject_Z_mult.
    replace (Z.sgn b * Z.sgn b) with 1 by (destruct b; simpl; lia).
    reflexivity.
  - apply inject_Z_nonzero. lia.
  - apply inject_Z_nonzero. lia.
  - apply scaled_quotient.
Qed.

(** Half a unit in the last place at most. *)
Lemma F2Q_accurate :
  (Qabs (F2Q f - inject_Z a / inject_Z b) <= Qpower 2 ex * (1 # 2))%Q.
Proof.
  assert (Hx : 0 < x) by (unfold x; lia).
  assert (Hy : 0 < y) by (unfold y; lia).
  pose proof (den_pos x y Hx Hy ex) as Hden. fold den in Hden.
  destruct (round_half_even_spec num den Hden) as (_ & Herr & _).
  fold q in Herr.
  rewrite F2Q_error. rewrite !Qabs_Qmult.
  rewrite (Qabs_pos (Qpower 2 ex)) by (apply Qlt_le_weak, Qpower_2_pos).
  assert (Hsa : (Qabs (inject_Z (Z.sgn a)) == 1)%Q)
    by (destruct a; try contradiction; reflexivity).
  assert (Hsb : (Qabs (inject_Z (Z.sgn b)) == 1)%Q)
    by (destruct b; try contradiction; reflexivity).
  rewrite Hsa, Hsb, !Qmult_1_l, Qmult_comm.
  apply Qmult_le_l; [apply Qpower_2_pos |].
  rewrite <- (inject_Z_mult q den).
  unfold Qminus. rewrite <- inject_Z_opp, <- inject_Z_plus.
  apply Qabs_half; [exact Hden |].
  replace (q * den + - num) with (q * den - num) by lia. exact Herr.
Qed.

(** No error at all when the scaled quotient is an integer. *)
Lemma F2Q_exact :
  num mod den = 0 -> (F2Q f == inject_Z a / inject_Z b)%Q.
Proof.
  intros Hrm.
  assert (Hx : 0 < x) by (unfold x; lia).
  assert (Hy : 0 < y) by (unfold y; lia).
  pose proof (den_pos x y Hx Hy ex) as Hden. fold den in Hden.
  assert (Eq : q * den = num).
  { unfold q. rewrite round_half_even_exact by assumption.
    pose proof (Z.div_mod num den ltac:(lia)). lia. }
  assert (E : (F2Q f - inject_Z a / inject_Z b == 0)%Q).
  { rewrite F2Q_error. rewrite <- (inject_Z_mult q den), Eq.
    setoid_replace (inject_Z num - inject_Z num)%Q with 0%Q by ring.
    unfold Qdiv. ring. }
  setoid_replace (F2Q f)
    with (F2Q f - inject_Z a / inject_Z b + inject_Z a / inject_Z b)%Q
    by ring.
  rewrite E. ring.
Qed.

End QuotientError.

(** *** The float quotient as a whole *)

Section IntTrueDivide.

Variables a b : Z.
Hypothesis Ha : a <> 0.
Hypothesis Hb : b <> 0.

Let x := Z.abs a.
Let y := Z.abs b.
Let ex := ulp_exponent x y.
Let num := if 0 <=? ex then x else x * 2 ^ (- ex).
Let den := if 0 <=? ex then y * 2 ^ ex else y.
Let q := round_half_even num den.
Let f := rounded_quotient a b.

Lemma rounded_quotient_exponent : fexp f = ex.
Proof. reflexivity. Qed.

Lemma rounded_quotient_mantissa : Z.abs (fmant f) = q.
Proof.
  assert (Hx : 0 < x) by (unfold x; lia).
  assert (Hy : 0 < y) by (unfold y; lia).
  destruct (rounded_bounds x y Hx Hy) as ((Hq & _) & _).
  fold ex num den q in Hq.
  unfold f, rounded_quotient. cbn [fmant]. fold x y ex num den q.
  destruct a, b; try contradiction; simpl Z.sgn; lia.
Qed.

(** The range check of [int_true_divide], in terms of the quotient. *)
Lemma int_true_divide_spec :
  int_true_divide a b =
  if (2 ^ 54 - 1) * 2 ^ 970 * y <=? x then Raise DivisionTooLarge
  else Ok f.
Proof.
  assert (Hx : 0 < x) by (unfold x; lia).
  assert (Hy : 0 < y) by (unfold y; lia).
  unfold int_true_divide.
  destruct (Z.eqb_spec b 0); [contradiction |].
  destruct (Z.eqb_spec a 0); [contradiction |].
  cbv zeta. fold f. rewrite rounded_quotient_exponent, rounded_quotient_mantissa.
  pose proof (overflow_iff x y Hx Hy) as Hov. cbv zeta in Hov.
  fold ex num den q in Hov.
  destruct (Z.leb_spec ((2 ^ 54 - 1) * 2 ^ 970 * y) x) as [Hle | Hlt].
  - rewrite (proj2 Hov Hle). reflexivity.
  - assert (Hc : (971 <? ex) || ((ex =? 971) && (2 ^ 53 <=? q)) = false).
    { apply not_true_is_false. intros Hc. apply Hov in Hc. lia. }
    rewrite Hc. reflexivity.
Qed.

(** The float is a binary64 value: at most 53 bits of mantissa, exactly
    53 unless it is subnormal. *)
Lemma rounded_quotient_format :
  Z.abs (fmant f) <= 2 ^ 53 /\ - 1074 <= fexp f /\
  (fexp f = - 1074 \/ 2 ^ 52 <= Z.abs (fmant f)).
Proof.
  assert (Hx : 0 < x) by (unfold x; lia).
  assert (Hy : 0 < y) by (unfold y; lia).
  rewrite rounded_quotient_exponent, rounded_quotient_mantissa.
  destruct (rounded_bounds x y Hx Hy) as ((_ & Hq) & Hnorm).
  fold ex num den q in Hq, Hnorm.
  pose proof (ulp_exponent_ge x y) as Hex. fold ex in Hex.
  split; [exact Hq |]. split; [exact Hex | exact Hnorm].
Qed.

End IntTrueDivide.

(** A mantissa below 2^53 over a power of 16 that is not too small is
    represented exactly. *)
Lemma rounded_quotient_small (a k : Z) :
  a <> 0 -> Z.abs a < 2 ^ 53 -> 1 <= k <= 268 ->
  int_true_divide a (16 ^ k) = Ok (rounded_quotient a (16 ^ k)) /\
  (F2Q (rounded_quotient a (16 ^ k)) == inject_Z a / inject_Z (16 ^ k))%Q.
Proof.
  intros Ha Hsmall Hk.
  assert (E16 : 16 ^ k = 2 ^ (4 * k))
    by (rewrite Z.pow_mul_r by lia; reflexivity).
  pose proof (pow2_pos (4 * k) ltac:(lia)) as Hpos.
  assert (Hb : 16 ^ k <> 0) by lia.
  assert (Hx : 0 < Z.abs a) by lia.
  assert (Hy : 0 < Z.abs (16 ^ k)) by lia.
  assert (Hlog : Z.log2 (Z.abs a) < 53)
    by (apply Z.log2_lt_pow2; [lia | exact Hsmall]).
  assert (Hex : ulp_exponent (Z.abs a) (Z.abs (16 ^ k)) <= - (4 * k)).
  { unfold ulp_exponent, quotient_exponent.
    rewrite (Z.abs_eq (16 ^ k)) by lia. rewrite E16, Z.log2_pow2 by lia.
    destruct (pow2_le _ _ _); lia. }
  split.
  - rewrite int_true_divide_spec by assumption.
    destruct (Z.leb_spec ((2 ^ 54 - 1) * 2 ^ 970 * Z.abs (16 ^ k)) (Z.abs a));
      [nia | reflexivity].
  - apply F2Q_exact; try assumption.
    set (ex := ulp_exponent (Z.abs a) (Z.abs (16 ^ k))) in *.
    destruct (Z.leb_spec 0 ex); [lia |].
    rewrite (Z.abs_eq (16 ^ k)) by lia. rewrite E16.
    replace (- ex) with (- ex - 4 * k + 4 * k) by lia.
    rewrite Z.pow_add_r by lia. rewrite Z.mul_assoc.
    apply Z.mod_mul. lia.
Qed.

Lemma int_true_divide_zero (b : Z) :
  b <> 0 -> int_true_divide 0 b = Ok {| fmant := 0; fexp := 0 |}.
Proof.
  intros Hb. unfold int_true_divide.
  destruct (Z.eqb_spec b 0); [contradiction | reflexivity].
Qed.

(** Whatever [int_true_divide] returns is below 2^1024. *)
Lemma int_true_divide_finite (a b : Z) (f : float64) :
  int_true_divide a b = Ok f ->
  fexp f <= 971 /\ (fexp f = 971 -> Z.abs (fmant f) < 2 ^ 53).
Proof.
  unfold int_true_divide.
  destruct (b =? 0); [discriminate |].
  destruct (a =? 0); [intros [= <-]; cbn; lia |]. cbv zeta.
  destruct ((971 <? fexp (rounded_quotient a b))
            || ((fexp (rounded_quotient a b) =? 971)
                && (2 ^ 53 <=? Z.abs (fmant (rounded_quotient a b)))))
    eqn:Hc; [discriminate |].
  intros [= <-].
  apply orb_false_iff in Hc as (H1 & H2). apply Z.ltb_ge in H1.
  split; [exact H1 |]. intros E. rewrite E, Z.eqb_refl in H2.
  apply Z.leb_gt in H2. exact H2.
Qed.

(** The first half of [decode] on a residue outside the dead zone. *)
Lemma decode_valid (n e x : Z) :
  let max_int := PaillierPublicKey.max_int (PaillierPublicKey.init n) in
  e < n -> e <= max_int \/ n - max_int <= e ->
  EncodedNumber.decode
    {| EncodedNumber.public_key := PaillierPublicKey.init n;
       EncodedNumber.encoding := e;
       EncodedNumber.exponent := x |}
  = EncodedNumber.decode_value (if e <=? max_int then e else e - n) x.
Proof.
  cbv zeta. unfold EncodedNumber.decode. simpl. intros Hlt Hvalid.
  destruct (Z.geb_spec e n); [lia |].
  destruct (Z.leb_spec e (n / 3 - 1)); [reflexivity |].
  destruct (Z.geb_spec e (n - (n / 3 - 1))); [reflexivity | lia].
Qed.

(** C5, as the source has it.  At a negative exponent [decode] returns the
    [float] quotient of the mantissa by [BASE ** -exponent]: a binary64
    value (at most 53 bits of mantissa, exponent between -1074 and 971)
    within half a unit in the last place of the exact rational, and equal
    to it when the mantissa is below 2^53 and the exponent at least -268;
    [ResultTooLarge] is raised exactly when the quotient is at least
    2^1024 - 2^970, which rounds to 2^1024. *)
Theorem C5_decode_negative_exponent (n e x : Z) :
  let pk := PaillierPublicKey.init n in
  let self :=
    {| EncodedNumber.public_key := pk;
       EncodedNumber.encoding := e;
       EncodedNumber.exponent := x |} in
  let max_int := PaillierPublicKey.max_int pk in
  let mantissa := if e <=? max_int then e else e - n in
  let D := EncodedNumber.BASE ^ (- x) in
  0 <= e < n -> e <= max_int \/ n - max_int <= e -> x < 0 ->
  (EncodedNumber.decode self = Raise ResultTooLarge <->
   (2 ^ 54 - 1) * 2 ^ 970 * D <= Z.abs mantissa) /\
  (Z.abs mantissa < (2 ^ 54 - 1) * 2 ^ 970 * D ->
   exists f,
     EncodedNumber.decode self = Ok (PyFloat f) /\
     Z.abs (fmant f) <= 2 ^ 53 /\ - 1074 <= fexp f <= 971 /\
     (fmant f = 0 \/ fexp f = - 1074 \/ 2 ^ 52 <= Z.abs (fmant f)) /\
     (Qabs (F2Q f - inject_Z mantissa / inject_Z D)
      <= Qpower 2 (fexp f) * (1 # 2))%Q) /\
  (Z.abs mantissa < 2 ^ 53 -> - 268 <= x ->
   exists f,
     EncodedNumber.decode self = Ok (PyFloat f) /\
     (F2Q f == inject_Z mantissa / inject_Z D)%Q).
Proof.
  intros pk self max_int mantissa D He Hvalid Hx.
  assert (HD : 0 < D)
    by (apply Z.pow_pos_nonneg; unfold EncodedNumber.BASE; lia).
  assert (Hdec : EncodedNumber.decode self
                 = EncodedNumber.decode_value mantissa x)
    by (apply decode_valid; [lia | exact Hvalid]).
  rewrite Hdec. unfold EncodedNumber.decode_value.
  destruct (Z.geb_spec x 0); [lia |]. fold D.
  destruct (Z.eq_dec mantissa 0) as [E0 | Hnz].
  - (* a zero mantissa *)
    rewrite E0, int_true_divide_zero by lia.
    split; [split; [discriminate |] |].
    { intros Hbad. exfalso. change (Z.abs 0) with 0 in Hbad. nia. }
    split; intros _; [| intros _];
      exists {| fmant := 0; fexp := 0 |}; (split; [reflexivity |]).
    + cbn [fmant fexp]. split; [simpl Z.abs; lia |]. split; [lia |].
      split; [left; reflexivity |].
      unfold F2Q, Qdiv. cbn [fmant fexp].
      setoid_replace (inject_Z 0 * Qpower 2 0 - inject_Z 0 * / inject_Z D)%Q
        with 0%Q by (change (inject_Z 0) with 0%Q; ring).
      discriminate.
    + unfold F2Q, Qdiv. cbn [fmant fexp].
      change (inject_Z 0) with 0%Q. ring.
  - rewrite (int_true_divide_spec mantissa D Hnz ltac:(lia)).
    rewrite (Z.abs_eq D) by lia.
    destruct (Z.leb_spec ((2 ^ 54 - 1) * 2 ^ 970 * D) (Z.abs mantissa))
      as [Hbig | Hfit].
    + split; [split; [intros _; exact Hbig | reflexivity] |].
      split; [lia |]. intros Hsmall _. exfalso. nia.
    + split; [split; [discriminate | lia] |].
      pose proof (int_true_divide_spec mantissa D Hnz ltac:(lia)) as Hrun.
      rewrite (Z.abs_eq D) in Hrun by lia.
      destruct (Z.leb_spec ((2 ^ 54 - 1) * 2 ^ 970 * D) (Z.abs mantissa));
        [lia |].
      destruct (int_true_divide_finite _ _ _ Hrun) as (Hfin & _).
      destruct (rounded_quotient_format mantissa D Hnz ltac:(lia))
        as (Hm & Hlow & Hnorm).
      split.
      * intros _. exists (rounded_quotient mantissa D).
        split; [reflexivity |]. split; [exact Hm |].
        split; [lia |]. split; [right; exact Hnorm |].
        apply F2Q_accurate; lia.
      * intros Hsmall Hx268. exists (rounded_quotient mantissa D).
        split; [reflexivity |].
        unfold D, EncodedNumber.BASE.
        apply rounded_quotient_small; lia.
Qed.

Lemma C5_decode_negative_exponent_witness :
  exists f,
    EncodedNumber.decode
      {| EncodedNumber.public_key := PaillierPublicKey.init 1000;
         EncodedNumber.encoding := 995;
         EncodedNumber.exponent := -2 |} = Ok (PyFloat f) /\
    (F2Q f == inject_Z (-5) / inject_Z (16 ^ 2))%Q.
Proof.
  destruct (C5_decode_negative_exponent 1000 995 (-2)) as (_ & _ & H).
  - lia.
  - right. vm_compute. discriminate.
  - lia.
  - apply H; [vm_compute; reflexivity | lia].
Defined.

(** C5 as it is worded fails: the mantissa 2^53 + 1 at exponent -1 decodes
    to the float 2^49, not to the rational (2^53 + 1) / 16. *)
Lemma C5_decode_negative_exponent_counterexample :
  let self :=
    {| EncodedNumber.public_key := PaillierPublicKey.init (2 ^ 60);
       EncodedNumber.encoding := 2 ^ 53 + 1;
       EncodedNumber.exponent := -1 |} in
  0 <= 2 ^ 53 + 1
  <= PaillierPublicKey.max_int (PaillierPublicKey.init (2 ^ 60)) /\
  exists f,
    EncodedNumber.decode self = Ok (PyFloat f) /\
    (F2Q f == inject_Z (2 ^ 49))%Q /\
    ~ (F2Q f == inject_Z (2 ^ 53 + 1) / inject_Z (16 ^ 1))%Q.
Proof.
  cbv zeta. split; [vm_compute; split; discriminate |].
  eexists. split; [vm_compute; reflexivity |].
  split; [vm_compute; reflexivity |].
  intros H. vm_compute in H. discriminate H.
Qed.
